(** * SerialCommand: a shallow embedding of [SerialCommand.cpp]

    The line buffer, the [strtok_r] tokenizer cursor, the command registry,
    the dispatcher and the half-duplex transmit sequence of the Arduino
    [SerialCommand] class, with the properties of its specification.

    Conventions.
    - A C [char] is an [ascii] (eight bits); a C string value is the
      [list ascii] of the characters before its terminating NUL.
    - [char _buffer[SERIALCOMMAND_BUFFER + 1]] is a [list ascii] used as an
      array; pointers into it ([_last], the tokens) are offsets.
    - Undefined behaviour of the C++ code (reading through a null pointer,
      an access outside an array) is the explicit outcome [Fault]. *)

From Stdlib Require Import ZArith Lia Ascii String.
From stdpp Require Import base tactics option list.

Local Open Scope nat_scope.

(** ** Characters and C strings *)

Definition cstring := list ascii.

Definition NUL : ascii := Ascii.zero.

#[global] Instance ascii_eq_dec : EqDecision ascii := ascii_dec.

(** [isprint] of <ctype.h> in the C locale: the codes 0x20 to 0x7E. *)
Definition isprint (c : ascii) : bool :=
  (32 <=? nat_of_ascii c) && (nat_of_ascii c <=? 126).

(** The C string that starts at the head of a memory region: the characters
    before the first NUL. *)
Fixpoint cstr (mem : list ascii) : cstring :=
  match mem with
  | [] => []
  | c :: mem' => if decide (c = NUL) then [] else c :: cstr mem'
  end.

(** The C string read through the pointer [buf + i]. *)
Definition cstr_at (buf : list ascii) (i : nat) : cstring := cstr (drop i buf).

(** [strcmp]: the difference of the first two characters that differ, as
    unsigned chars; the end of a list is the terminating NUL. *)
Fixpoint strcmp (a b : list ascii) : Z :=
  match a, b with
  | [], [] => 0%Z
  | c :: _, [] => Z.of_nat (nat_of_ascii c)
  | [], d :: _ => (- Z.of_nat (nat_of_ascii d))%Z
  | c :: a', d :: b' =>
      if decide (c = d)
      then if decide (c = NUL) then 0%Z else strcmp a' b'
      else (Z.of_nat (nat_of_ascii c) - Z.of_nat (nat_of_ascii d))%Z
  end.

(** ** Outcomes of code that can leave defined behaviour *)

Inductive fault : Set :=
| NullDereference   (* a read through a null pointer *)
| OutOfBounds.      (* an access outside an array *)

Inductive result (A : Type) : Type :=
| Ok (a : A)
| Fault (f : fault).
Arguments Ok {A} a.
Arguments Fault {A} f.

#[global] Instance result_ret : MRet result := @Ok.
#[global] Instance result_bind : MBind result := fun A B k m =>
  match m with
  | Ok a => k a
  | Fault f => Fault f
  end.
#[global] Instance result_fmap : FMap result := fun A B g m =>
  match m with
  | Ok a => Ok (g a)
  | Fault f => Fault f
  end.

(** A store [buf[i] = c] into an array: outside the array it is a fault. *)
Definition store (buf : list ascii) (i : nat) (c : ascii) : result (list ascii) :=
  if decide (i < length buf) then Ok (<[i := c]> buf) else Fault OutOfBounds.

(** A load [buf[i]]. *)
Definition load (buf : list ascii) (i : nat) : result ascii :=
  match buf !! i with
  | Some c => Ok c
  | None => Fault OutOfBounds
  end.

(** ** The libc tokenizer *)

(** Membership of a character in the delimiter string. *)
Definition is_delim (delim : cstring) (c : ascii) : bool :=
  bool_decide (c ∈ delim).

(** [strspn(s, delim)] on the memory that starts at [s]: the number of
    leading delimiter characters.  Running off the array before a NUL or a
    non-delimiter is a fault. *)
Fixpoint strspn (mem : list ascii) (delim : cstring) : result nat :=
  match mem with
  | [] => Fault OutOfBounds
  | c :: mem' =>
      if decide (c = NUL) then Ok 0
      else if is_delim delim c then S <$> strspn mem' delim
      else Ok 0
  end.

(** [strcspn(s, delim)]: the number of leading characters that are neither
    NUL nor a delimiter. *)
Fixpoint strcspn (mem : list ascii) (delim : cstring) : result nat :=
  match mem with
  | [] => Fault OutOfBounds
  | c :: mem' =>
      if decide (c = NUL) then Ok 0
      else if is_delim delim c then Ok 0
      else S <$> strcspn mem' delim
  end.

(** [strtok_r(s, delim, &save)] of libc, after its POSIX description, over
    the array [buf].  [s] is [Some i] for the pointer [buf + i] and [None]
    for NULL; the result is the token pointer (or NULL), the array after
    the call and the new [save].

    The function skips leading delimiters; at a NUL it returns NULL and
    leaves [save] at that NUL; otherwise the token runs to the next
    delimiter, which is overwritten with NUL ([save] just after it), or to
    the end of the string ([save] at its NUL). *)
Definition strtok_r (buf : list ascii) (s : option nat) (delim : cstring)
    (save : option nat) : result (option nat * list ascii * option nat) :=
  start ← match s, save with
          | Some i, _ => Ok i
          | None, Some i => Ok i
          | None, None => Fault NullDereference
          end;
  n ← strspn (drop start buf) delim;
  let tok := start + n in
  c ← load buf tok;
  if decide (c = NUL) then Ok (None, buf, Some tok)
  else
    m ← strcspn (drop tok buf) delim;
    let e := tok + m in
    c' ← load buf e;
    if decide (c' = NUL) then Ok (Some tok, buf, Some e)
    else buf' ← store buf e NUL; Ok (Some tok, buf', Some (S e)).

(** The position a call starts from: the argument when it is not null, the
    saved pointer otherwise. *)
Definition resume (s save : option nat) : option nat :=
  match s with Some i => Some i | None => save end.

(** What the tokenizer is meant to compute, on strings: the maximal runs of
    non-delimiter characters, in order.  [cur] is the run being read, in
    reverse. *)
Fixpoint split_tokens (delim : cstring) (cur : list ascii) (s : cstring)
    : list cstring :=
  match s with
  | [] => match cur with [] => [] | _ => [rev cur] end
  | c :: s' =>
      if is_delim delim c
      then match cur with
           | [] => split_tokens delim [] s'
           | _ => rev cur :: split_tokens delim [] s'
           end
      else split_tokens delim (c :: cur) s'
  end.

Definition tokens (delim : cstring) (s : cstring) : list cstring :=
  split_tokens delim [] s.

(** The three shapes of what is left of a line: only delimiters; a last
    token; a token followed by a delimiter. *)
Inductive line_shape (delim : cstring) (s : cstring) : Prop :=
| shape_none : Forall (fun c => is_delim delim c = true) s -> line_shape delim s
| shape_last d t :
    s = d ++ t ->
    Forall (fun c => is_delim delim c = true) d ->
    Forall (fun c => is_delim delim c = false) t -> t <> [] ->
    line_shape delim s
| shape_more d t c s' :
    s = d ++ t ++ c :: s' ->
    Forall (fun c => is_delim delim c = true) d ->
    Forall (fun c => is_delim delim c = false) t -> t <> [] ->
    is_delim delim c = true ->
    line_shape delim s.

(** ** The class *)

(** Effects of the transmit path, in program order. *)
Inductive event : Set :=
| DigitalWrite (pin : Z) (high : bool)   (* digitalWrite(pin, HIGH / LOW) *)
| DelayMicroseconds (us : nat)           (* delayMicroseconds(us) *)
| PortWrite (c : ascii)                  (* one byte printed on _port *)
| PortFlush                              (* _port.flush() *)
| SerialWrite (c : ascii).               (* one byte printed on the global Serial *)

Section SerialCommand.

(** The capacity macro of the header, and the type of the handler function
    pointers [void ( * )(SerialCommand)]; their bodies are client code. *)
Variable SERIALCOMMAND_BUFFER : nat.
Variable handler : Type.

(** [struct CommandInfo]: both members are pointers and can be null. *)
Record CommandInfo : Type := {
  name : option cstring;
  function : option handler
}.

(** The data members.  [_commandList] holds the [_commandCount] registered
    entries, in registration order; [_last] is the [strtok_r] save pointer,
    an offset into [_buffer] when not null. *)
Record SerialCommand : Type := {
  _commandList : list CommandInfo;
  _maxCommands : nat;
  _default_command : CommandInfo;
  _current_command : CommandInfo;
  _device_type : option cstring;
  _writeEnablePin : Z;
  _delim : cstring;
  _term : ascii;
  _buffer : list ascii;
  _bufPos : nat;
  _last : option nat
}.

Definition _commandCount (st : SerialCommand) : nat := length (_commandList st).

Definition set_commandList (st : SerialCommand) (l : list CommandInfo) :=
  {| _commandList := l; _maxCommands := _maxCommands st;
     _default_command := _default_command st;
     _current_command := _current_command st;
     _device_type := _device_type st; _writeEnablePin := _writeEnablePin st;
     _delim := _delim st; _term := _term st; _buffer := _buffer st;
     _bufPos := _bufPos st; _last := _last st |}.

Definition set_default_command (st : SerialCommand) (c : CommandInfo) :=
  {| _commandList := _commandList st; _maxCommands := _maxCommands st;
     _default_command := c;
     _current_command := _current_command st;
     _device_type := _device_type st; _writeEnablePin := _writeEnablePin st;
     _delim := _delim st; _term := _term st; _buffer := _buffer st;
     _bufPos := _bufPos st; _last := _last st |}.

Definition set_current_command (st : SerialCommand) (c : CommandInfo) :=
  {| _commandList := _commandList st; _maxCommands := _maxCommands st;
     _default_command := _default_command st;
     _current_command := c;
     _device_type := _device_type st; _writeEnablePin := _writeEnablePin st;
     _delim := _delim st; _term := _term st; _buffer := _buffer st;
     _bufPos := _bufPos st; _last := _last st |}.

Definition set_buffer (st : SerialCommand) (b : list ascii) :=
  {| _commandList := _commandList st; _maxCommands := _maxCommands st;
     _default_command := _default_command st;
     _current_command := _current_command st;
     _device_type := _device_type st; _writeEnablePin := _writeEnablePin st;
     _delim := _delim st; _term := _term st; _buffer := b;
     _bufPos := _bufPos st; _last := _last st |}.

Definition set_bufPos (st : SerialCommand) (n : nat) :=
  {| _commandList := _commandList st; _maxCommands := _maxCommands st;
     _default_command := _default_command st;
     _current_command := _current_command st;
     _device_type := _device_type st; _writeEnablePin := _writeEnablePin st;
     _delim := _delim st; _term := _term st; _buffer := _buffer st;
     _bufPos := n; _last := _last st |}.

Definition set_last (st : SerialCommand) (p : option nat) :=
  {| _commandList := _commandList st; _maxCommands := _maxCommands st;
     _default_command := _default_command st;
     _current_command := _current_command st;
     _device_type := _device_type st; _writeEnablePin := _writeEnablePin st;
     _delim := _delim st; _term := _term st; _buffer := _buffer st;
     _bufPos := _bufPos st; _last := p |}.

(** [clearBuffer]: [_buffer[0] = 0; _bufPos = 0;].  Index 0 exists in
    every array, so the store is written with the list update. *)
Definition clearBuffer (st : SerialCommand) : SerialCommand :=
  set_bufPos (set_buffer st (<[0 := NUL]> (_buffer st))) 0.

(** The constructor, run on the object's storage [raw]: the members it
    does not assign keep what the storage held. *)
Definition construct (raw : SerialCommand) (deviceType : option cstring)
    (writeEnablePin : Z) (maxCommands : nat) : SerialCommand :=
  clearBuffer
    {| _commandList := []; _maxCommands := maxCommands;
       _default_command :=
         {| name := name (_default_command raw); function := None |};
       _current_command := _current_command raw;
       _device_type := deviceType; _writeEnablePin := writeEnablePin;
       _delim := [" "%char]; _term := "010"%char;
       _buffer := _buffer raw; _bufPos := _bufPos raw; _last := None |}.

(** [addCommand]: dropped when the list is full. *)
Definition addCommand (st : SerialCommand) (nm : option cstring)
    (f : option handler) : SerialCommand :=
  if decide (_maxCommands st <= _commandCount st) then st
  else set_commandList st (_commandList st ++ [{| name := nm; function := f |}]).

Definition setDefaultHandler (st : SerialCommand) (f : option handler)
    : SerialCommand :=
  set_default_command st
    {| name := name (_default_command st); function := f |}.

(** The loop of [lookupCommandByName] over the entries from index [i] on:
    the first entry whose name compares equal, if there is one.  Comparing
    with a null entry name reads through a null pointer. *)
Fixpoint scan_commands (nm : cstring) (l : list CommandInfo)
    : result (option CommandInfo) :=
  match l with
  | [] => Ok None
  | c :: l' =>
      match name c with
      | None => Fault NullDereference
      | Some cn =>
          if decide (strcmp nm cn = 0%Z) then Ok (Some c)
          else scan_commands nm l'
      end
  end.

(** [lookupCommandByName(name)], [name] being the string behind the
    pointer, or [None] for NULL. *)
Definition lookupCommandByName (st : SerialCommand) (nm : option cstring)
    : result SerialCommand :=
  match nm with
  | None => Ok st
  | Some n =>
      m ← scan_commands n (_commandList st);
      match m with
      | Some c => Ok (set_current_command st c)
      | None =>
          Ok (set_current_command st
                {| name := Some n; function := function (_default_command st) |})
      end
  end.

(** A call of a handler: the function called and the copy of the object it
    receives (the parameter has type [SerialCommand], passed by value).
    The copy's [_last] still points into the buffer of the original, and
    [next()] on the copy reads and writes that buffer.  The model reads and
    writes the copy's own [_buffer], which holds the same characters when
    the call starts, so the tokens are the same strings. *)
Record invocation : Type := {
  callee : handler;
  self : SerialCommand
}.

(** [runCommand]: the calls it makes. *)
Definition runCommand (st : SerialCommand) : list invocation :=
  match function (_current_command st) with
  | Some f => [{| callee := f; self := st |}]
  | None => []
  end.

(** The body of the loop of [readSerial] for a printable character, shared
    with [setBuffer]: [_buffer[_bufPos++] = inChar; _buffer[_bufPos] = 0;]. *)
Definition put_char (st : SerialCommand) (inChar : ascii) : result SerialCommand :=
  b1 ← store (_buffer st) (_bufPos st) inChar;
  let pos := S (_bufPos st) in
  b2 ← store b1 pos NUL;
  Ok (set_bufPos (set_buffer st b2) pos).

(** [readSerial], over the bytes [rx] the port has available: the value
    returned, the object afterwards and the bytes left unread. *)
Fixpoint readSerial (st : SerialCommand) (rx : list ascii)
    : result (nat * SerialCommand * list ascii) :=
  match rx with
  | [] => Ok (0, st, [])
  | inChar :: rx' =>
      if decide (inChar = _term st) then Ok (_bufPos st, st, rx')
      else if isprint inChar then
        if decide (_bufPos st < SERIALCOMMAND_BUFFER) then
          st' ← put_char st inChar; readSerial st' rx'
        else readSerial (set_bufPos st 0) rx'
      else readSerial st rx'
  end.

(** Bytes that arrive one at a time, with a call of [readSerial] after
    each: the values returned and the object at the end. *)
Fixpoint feed (st : SerialCommand) (bytes : list ascii)
    : result (list nat * SerialCommand) :=
  match bytes with
  | [] => Ok ([], st)
  | b :: bytes' =>
      '(r, st', _) ← readSerial st [b];
      '(rs, st'') ← feed st' bytes';
      Ok (r :: rs, st'')
  end.

(** The string a [char *] into [_buffer] points to. *)
Definition token_at (st : SerialCommand) (p : option nat) : option cstring :=
  (fun i => cstr_at (_buffer st) i) <$> p.

(** [strtok_r(s, _delim, &_last)] as a method step: the token pointer and
    the object with the array and [_last] updated. *)
Definition tokenize (st : SerialCommand) (s : option nat)
    : result (option nat * SerialCommand) :=
  '(tok, buf, save) ← strtok_r (_buffer st) s (_delim st) (_last st);
  Ok (tok, set_last (set_buffer st buf) save).

(** [next()]. *)
Definition next (st : SerialCommand) : result (option nat * SerialCommand) :=
  tokenize st None.

(** [matchCommand()]. *)
Definition matchCommand (st : SerialCommand) : result SerialCommand :=
  '(nm, st1) ← tokenize st (Some 0);
  lookupCommandByName st1 (token_at st1 nm).

(** [strcmp(identifier, _device_type)] with a pointer that may be null. *)
Definition strcmp_ptr (a : option cstring) (b : cstring) : result Z :=
  match a with
  | Some s => Ok (strcmp s b)
  | None => Fault NullDereference
  end.

(** [processCommand]: the handler calls made and the object afterwards.
    The body of a handler is client code: the model records the call and
    stops there.  After a call the object is therefore given as a handler
    leaves it that makes no store into [_buffer] (a handler that calls
    [next()] writes NULs there through the copied [_last]), and the name
    of its current command is the string the name pointer held at the
    call: where that pointer is into [_buffer], as for an unmatched name,
    the code reads through it what [clearBuffer] then leaves.  Of the
    object after a call, the statements use only what depends on neither:
    the length, the first character and the size of the array, and the
    members other than [_buffer] and [_current_command]. *)
Definition processCommand (st : SerialCommand)
    : result (list invocation * SerialCommand) :=
  '(nm, st1) ← tokenize st (Some 0);
  '(identifier, st2) ← tokenize st1 None;
  match _device_type st2 with
  | None => Ok ([], clearBuffer st2)
  | Some dt =>
      d ← strcmp_ptr (token_at st2 identifier) dt;
      if decide (d = 0%Z) then
        st3 ← lookupCommandByName st2 (token_at st2 nm);
        Ok (runCommand st3, clearBuffer st3)
      else Ok ([], clearBuffer st2)
  end.

(** The loop of [setBuffer] over the characters of [text_line]; the end of
    the list is its terminating NUL. *)
Fixpoint setBuffer_loop (st : SerialCommand) (text : list ascii)
    : result SerialCommand :=
  match text with
  | [] => Ok st
  | inChar :: text' =>
      if decide (inChar = NUL) then Ok st
      else if decide (inChar = _term st) then Ok st
      else if isprint inChar then
        if decide (_bufPos st < SERIALCOMMAND_BUFFER) then
          st' ← put_char st inChar; setBuffer_loop st' text'
        else Ok st
      else setBuffer_loop st text'
  end.

Definition setBuffer (st : SerialCommand) (text_line : list ascii)
    : result SerialCommand :=
  setBuffer_loop (clearBuffer st) text_line.

(** The transmit path threads the log of the effects made so far. *)
Definition emit (e : event) (log : list event) : list event := log ++ [e].

(** [print] of a string on a stream writes its bytes in order; [println]
    then writes CR LF. *)
Fixpoint port_print (s : cstring) (log : list event) : list event :=
  match s with
  | [] => log
  | c :: s' => port_print s' (emit (PortWrite c) log)
  end.

Fixpoint serial_print (s : cstring) (log : list event) : list event :=
  match s with
  | [] => log
  | c :: s' => serial_print s' (emit (SerialWrite c) log)
  end.

Definition serial_println (s : cstring) (log : list event) : list event :=
  serial_print ["013"%char; "010"%char] (serial_print s log).

(** [write(val)]. *)
Definition write (val : ascii) (log : list event) : list event :=
  emit (PortWrite val) log.

(** [sendData(message, writeDelimiter)]. *)
Definition sendData (st : SerialCommand) (message : cstring)
    (writeDelimiter : ascii) (log : list event) : list event :=
  let log := emit (DigitalWrite (_writeEnablePin st) true) log in
  let log := emit (DelayMicroseconds 500) log in
  let log := port_print message log in
  let log := emit (PortWrite writeDelimiter) log in
  let log := emit PortFlush log in
  let log := emit (DelayMicroseconds 500) log in
  let log := emit (DigitalWrite (_writeEnablePin st) false) log in
  serial_println message log.

End SerialCommand.

Arguments name {handler} c.
Arguments function {handler} c.
Arguments Build_CommandInfo {handler} name function.
Arguments _commandList {handler} s.
Arguments _maxCommands {handler} s.
Arguments _default_command {handler} s.
Arguments _current_command {handler} s.
Arguments _device_type {handler} s.
Arguments _writeEnablePin {handler} s.
Arguments _delim {handler} s.
Arguments _term {handler} s.
Arguments _buffer {handler} s.
Arguments _bufPos {handler} s.
Arguments _last {handler} s.
Arguments _commandCount {handler} st.
Arguments set_commandList {handler} st l.
Arguments set_default_command {handler} st c.
Arguments set_current_command {handler} st c.
Arguments set_buffer {handler} st b.
Arguments set_bufPos {handler} st n.
Arguments set_last {handler} st p.
Arguments clearBuffer {handler} st.
Arguments construct {handler} raw deviceType writeEnablePin maxCommands.
Arguments addCommand {handler} st nm f.
Arguments setDefaultHandler {handler} st f.
Arguments scan_commands {handler} nm l.
Arguments lookupCommandByName {handler} st nm.
Arguments callee {handler} i.
Arguments self {handler} i.
Arguments Build_invocation {handler} callee self.
Arguments runCommand {handler} st.
Arguments put_char {handler} st inChar.
Arguments readSerial SERIALCOMMAND_BUFFER {handler} st rx.
Arguments feed SERIALCOMMAND_BUFFER {handler} st bytes.
Arguments token_at {handler} st p.
Arguments tokenize {handler} st s.
Arguments next {handler} st.
Arguments matchCommand {handler} st.
Arguments processCommand {handler} st.
Arguments setBuffer_loop SERIALCOMMAND_BUFFER {handler} st text.
Arguments setBuffer SERIALCOMMAND_BUFFER {handler} st text_line.
Arguments sendData {handler} st message writeDelimiter log.

(** ** Predicates of the statements *)

(** A list that is a C string value: it has no NUL inside. *)
Definition valid_cstring (s : cstring) : Prop := NUL ∉ s.

(** How a caller reads the value [readSerial] returns.  The function
    returns "zero until terminator encountered" (the comment of its last
    line), so it is a value other than 0 that says a line is ready. *)
Definition line_ready (r : nat) : Prop := r <> 0.

(** The characters of [text] that [setBuffer] gets to see: those before
    the first NUL or terminator. *)
Fixpoint before_terminator (term : ascii) (text : list ascii) : list ascii :=
  match text with
  | [] => []
  | c :: text' =>
      if decide (c = NUL) then []
      else if decide (c = term) then []
      else c :: before_terminator term text'
  end.

Section Predicates.

Variable SERIALCOMMAND_BUFFER : nat.
Variable handler : Type.
Implicit Types st : SerialCommand handler.

(** Modelled from the spec: the declaration of [_buffer] is in the header,
    which is not among the sources.  The spec has the buffer hold up to
    the capacity in characters and be null-terminated at all times, hence
    one slot more than the capacity. *)
Definition buffer_declared st : Prop :=
  length (_buffer st) = S SERIALCOMMAND_BUFFER.

(** The bound on the length that [readSerial] maintains. *)
Definition bounded st : Prop :=
  buffer_declared st ∧ _bufPos st <= SERIALCOMMAND_BUFFER.

(** The buffer holds the completed line [line]. *)
Definition holds_line st (line : cstring) : Prop :=
  valid_cstring line ∧ exists rest, _buffer st = line ++ NUL :: rest.

(** The cursor [_last] stands before the part [s] of the current line. *)
Definition cursor_before st (s : cstring) : Prop :=
  valid_cstring s ∧
  exists j rest, _last st = Some j ∧ drop j (_buffer st) = s ++ NUL :: rest.

(** A cursor that gives no token any more: [next()] does not return one. *)
Definition cursor_invalidated st : Prop :=
  forall p st', next st <> Ok (Some p, st').

(** Every registered entry has a name, a C string. *)
Definition registry_named st : Prop :=
  Forall (fun c => exists n, name c = Some n ∧ valid_cstring n) (_commandList st).

End Predicates.

Arguments buffer_declared SERIALCOMMAND_BUFFER {handler} st.
Arguments bounded SERIALCOMMAND_BUFFER {handler} st.
Arguments holds_line {handler} st line.
Arguments cursor_before {handler} st s.
Arguments cursor_invalidated {handler} st.
Arguments registry_named {handler} st.

(** ** A device used in the examples *)

(** Capacity 32; three handlers; the object's storage before construction
    holds arbitrary bytes. *)
Inductive demo_handler : Set := handlerA | handlerB | fallback.

Definition str (s : string) : cstring := list_ascii_of_string s.

Definition demo_raw : SerialCommand demo_handler :=
  {| _commandList := []; _maxCommands := 0;
     _default_command := {| name := None; function := None |};
     _current_command := {| name := None; function := None |};
     _device_type := None; _writeEnablePin := 0%Z;
     _delim := []; _term := NUL;
     _buffer := replicate 33 "#"%char; _bufPos := 7; _last := None |}.

(** [SerialCommand sCmd(port, "DEV1", 2, 4)], then two [addCommand] calls
    and [setDefaultHandler]. *)
Definition demo_device : SerialCommand demo_handler :=
  setDefaultHandler
    (addCommand
       (addCommand (construct demo_raw (Some (str "DEV1")) 2%Z 4)
          (Some (str "OPEN")) (Some handlerA))
       (Some (str "STATUS")) (Some handlerB))
    (Some fallback).

(** The device after the bytes of [line] and a newline arrived. *)
Definition demo_received (line : string) : result (SerialCommand demo_handler) :=
  '(_, st, _) ← readSerial 32 demo_device (str line ++ ["010"%char]);
  Ok st.

(** The same as an object; [demo_device] stands in if the call faults,
    which it does not. *)
Definition demo_state (line : string) : SerialCommand demo_handler :=
  match demo_received line with
  | Ok st => st
  | Fault _ => demo_device
  end.

(** Bytes with a tab among them; a line of 32 characters and one of 40. *)
Definition demo_bytes : list ascii := str "OPEN" ++ ["009"%char] ++ str " DEV1".

Definition demo_full : string := "0123456789ABCDEFGHIJKLMNOPQRSTUV".

Definition demo_long : string := "0123456789ABCDEFGHIJKLMNOPQRSTUVWXYZabcd".

(** The object between the two [strtok_r] calls of [processCommand] and
    the call of the handler. *)
Definition demo_tokenized (line : string) : SerialCommand demo_handler :=
  match '(_, st1) ← tokenize (demo_state line) (Some 0); tokenize st1 None with
  | Ok (_, st2) => st2
  | Fault _ => demo_device
  end.

(** ** Further predicates and examples *)

(** What the lookup of the name [n] is meant to select: the first
    registered entry of that name, or else the default handler paired with
    [n]. *)
Definition resolve {handler : Type} (st : SerialCommand handler) (n : cstring)
    : CommandInfo handler :=
  match List.find (fun c => bool_decide (name c = Some n)) (_commandList st) with
  | Some c => c
  | None => {| name := Some n; function := function (_default_command st) |}
  end.

(** The calls [addCommand(name, function)] of a setup, in order. *)
Definition register_all {handler : Type} (st : SerialCommand handler)
    (regs : list (option cstring * option handler)) : SerialCommand handler :=
  fold_left (fun s r => addCommand s r.1 r.2) regs st.

(** The level of the pin [pin] after the effects of [log], from [level]. *)
Fixpoint pin_level (pin : Z) (level : bool) (log : list event) : bool :=
  match log with
  | [] => level
  | DigitalWrite p h :: log' =>
      pin_level pin (if decide (p = pin) then h else level) log'
  | _ :: log' => pin_level pin level log'
  end.

(** The half-duplex discipline over a log: every byte that reaches the
    port and every flush of it happens with the direction pin [pin] high.
    [aliased] says that [_port] is the global [Serial] itself, so that what
    is printed on [Serial] reaches the port as well. *)
Fixpoint port_guarded (aliased : bool) (pin : Z) (level : bool)
    (log : list event) : bool :=
  match log with
  | [] => true
  | DigitalWrite p h :: log' =>
      port_guarded aliased pin (if decide (p = pin) then h else level) log'
  | DelayMicroseconds _ :: log' => port_guarded aliased pin level log'
  | PortWrite _ :: log' => level && port_guarded aliased pin level log'
  | PortFlush :: log' => level && port_guarded aliased pin level log'
  | SerialWrite _ :: log' =>
      (negb aliased || level) && port_guarded aliased pin level log'
  end.

(** The place of the echo: every byte printed on [Serial] is printed with
    the direction pin [pin] low, that is once a transmission is closed. *)
Fixpoint echo_released (pin : Z) (level : bool) (log : list event) : bool :=
  match log with
  | [] => true
  | DigitalWrite p h :: log' =>
      echo_released pin (if decide (p = pin) then h else level) log'
  | SerialWrite _ :: log' => negb level && echo_released pin level log'
  | _ :: log' => echo_released pin level log'
  end.

(** The calls [sendData(message, delimiter)] of a session, in order. *)
Definition send_all {handler : Type} (st : SerialCommand handler)
    (msgs : list (cstring * ascii)) (log : list event) : list event :=
  fold_left (fun l m => sendData st m.1 m.2 l) msgs log.

(** A device with room for one command, and the registrations asked of it. *)
Definition demo_small : SerialCommand demo_handler :=
  construct demo_raw (Some (str "DEV1")) 2%Z 1.

Definition demo_regs : list (option cstring * option demo_handler) :=
  [(Some (str "OPEN"), Some handlerA); (Some (str "STATUS"), Some handlerB)].

(** The example device after [addCommand(NULL, handlerA)]. *)
Definition demo_null : SerialCommand demo_handler :=
  addCommand demo_device None (Some handlerA).

(** Two replies. *)
Definition demo_msgs : list (cstring * ascii) :=
  [(str "ACK", "010"%char); (str "", "010"%char)].

(** * Properties *)

(** ** Characters and strings *)

Lemma nat_of_ascii_inj c d : nat_of_ascii c = nat_of_ascii d -> c = d.
Proof.
  intros E. rewrite <- (ascii_nat_embedding c), <- (ascii_nat_embedding d).
  now rewrite E.
Qed.

Lemma cstr_valid s : valid_cstring s -> cstr s = s.
Proof.
  unfold valid_cstring. induction s as [|c s IH]; simpl; [done|].
  intros H. apply not_elem_of_cons in H as [Hc Hs].
  destruct (decide (c = NUL)); [congruence|]. by rewrite IH.
Qed.

Lemma cstr_app_NUL s rest : valid_cstring s -> cstr (s ++ NUL :: rest) = s.
Proof.
  unfold valid_cstring. induction s as [|c s IH]; simpl.
  - intros _. by destruct (decide (NUL = NUL)).
  - intros H. apply not_elem_of_cons in H as [Hc Hs].
    destruct (decide (c = NUL)); [congruence|]. by rewrite IH.
Qed.

Lemma strcmp_zero a b : strcmp a b = 0%Z <-> cstr a = cstr b.
Proof.
  revert b. induction a as [|c a IH]; intros [|d b]; simpl.
  - done.
  - destruct (decide (d = NUL)) as [->|Hd]; [done|].
    split; [|done]. intros H. destruct Hd. apply nat_of_ascii_inj.
    change (nat_of_ascii NUL) with 0. lia.
  - destruct (decide (c = NUL)) as [->|Hc]; [done|].
    split; [|done]. intros H. destruct Hc. apply nat_of_ascii_inj.
    change (nat_of_ascii NUL) with 0. lia.
  - destruct (decide (c = d)) as [->|Hcd].
    + destruct (decide (d = NUL)); [done|]. rewrite IH. split; [congruence|].
      by intros [= ?].
    + split.
      * intros H. destruct Hcd. apply nat_of_ascii_inj. lia.
      * destruct (decide (c = NUL)) as [->|], (decide (d = NUL)) as [->|];
          try done. by intros [= ? ?].
Qed.

Lemma strcmp_eq a b :
  valid_cstring a -> valid_cstring b -> strcmp a b = 0%Z <-> a = b.
Proof.
  intros Ha Hb. rewrite strcmp_zero, (cstr_valid a Ha), (cstr_valid b Hb). done.
Qed.

Lemma cstr_take (buf : list ascii) n :
  buf !! n = Some NUL -> Forall (fun c => isprint c = true) (take n buf) ->
  cstr buf = take n buf.
Proof.
  intros Hn Hp. rewrite <- (take_drop_middle buf n NUL Hn) at 1.
  apply cstr_app_NUL. intros Hin.
  rewrite Forall_forall in Hp. by specialize (Hp _ Hin).
Qed.

Lemma Forall_filter_isprint l : Forall (fun c => isprint c = true) (List.filter isprint l).
Proof.
  apply Forall_forall. intros c Hc. apply list_elem_of_In, List.filter_In in Hc.
  tauto.
Qed.

(** The two stores of [put_char], by cases on their bounds checks; a store
    outside the array ends both sides of the goal in the same fault. *)
Ltac put_char_cases :=
  unfold put_char, store;
  repeat match goal with
         | |- context [decide (?i < length ?l)] =>
             destruct (decide (i < length l)) as [_|_]; [|done]; simpl
         end.

Section Accumulation.

Variable C : nat.
Variable handler : Type.
Implicit Types st : SerialCommand handler.

(** ** Accumulation *)

Lemma put_char_ok st c :
  buffer_declared C st -> _bufPos st < C ->
  put_char st c =
  Ok (set_bufPos
        (set_buffer st (<[S (_bufPos st) := NUL]> (<[_bufPos st := c]> (_buffer st))))
        (S (_bufPos st))).
Proof.
  unfold buffer_declared, put_char, store. intros Hl Hp.
  destruct (decide (_bufPos st < length (_buffer st))) as [|[]]; [|lia].
  simpl. rewrite length_insert.
  destruct (decide (S (_bufPos st) < length (_buffer st))) as [|[]]; [|lia].
  reflexivity.
Qed.

(** One call over bytes split in two parts, the first without terminator,
    is the call over the first part followed by the call over the second. *)
Lemma readSerial_app st rx rx2 :
  _term st ∉ rx ->
  readSerial C st (rx ++ rx2) =
  '(_, st', _) ← readSerial C st rx; readSerial C st' rx2.
Proof.
  revert st. induction rx as [|b rx IH]; intros st Ht; simpl; [done|].
  apply not_elem_of_cons in Ht as [Hb Ht].
  destruct (decide (b = _term st)) as [|_]; [congruence|].
  destruct (isprint b); [|by apply IH].
  destruct (decide (_bufPos st < C)) as [_|_]; [|by apply IH].
  put_char_cases. by apply IH.
Qed.


(** While the printable bytes fit, they are appended in order and the
    array stays null-terminated at the length. *)
Lemma readSerial_appends rx : forall st,
  bounded C st -> _term st ∉ rx ->
  _bufPos st + length (List.filter isprint rx) <= C ->
  exists buf,
    let n := _bufPos st + length (List.filter isprint rx) in
    readSerial C st rx = Ok (0, set_bufPos (set_buffer st buf) n, []) ∧
    length buf = S C ∧
    take n buf = take (_bufPos st) (_buffer st) ++ List.filter isprint rx ∧
    (_buffer st !! _bufPos st = Some NUL ∨ List.filter isprint rx <> [] ->
     buf !! n = Some NUL).
Proof.
  induction rx as [|b rx IH]; intros st [Hl Hp] Ht Hfit; simpl in *.
  - exists (_buffer st). rewrite Nat.add_0_r, app_nil_r.
    split; [by destruct st|]. split; [done|]. split; [done|].
    by intros [?|?].
  - apply not_elem_of_cons in Ht as [Hb Ht].
    destruct (decide (b = _term st)) as [|_]; [congruence|].
    destruct (isprint b) eqn:Hpr; simpl in *.
    + destruct (decide (_bufPos st < C)) as [Hlt|]; [|lia].
      rewrite (put_char_ok st b Hl Hlt). simpl.
      match goal with |- context [readSerial C ?s rx] =>
        destruct (IH s) as (buf & E & Hlen & Htk & Hnul) end.
      { split; [unfold buffer_declared; simpl; by rewrite !length_insert
               | simpl; lia]. }
      { done. }
      { simpl. lia. }
      simpl in *. exists buf.
      replace (_bufPos st + S (length (List.filter isprint rx)))
        with (S (_bufPos st + length (List.filter isprint rx))) by lia.
      split; [by rewrite E|]. split; [done|]. split.
      * rewrite Htk. rewrite take_insert_ge by lia.
        rewrite (take_S_r _ _ b).
        -- rewrite take_insert_ge by lia. by rewrite <- app_assoc.
        -- apply list_lookup_insert_eq. unfold buffer_declared in Hl. lia.
      * intros _. apply Hnul. left. apply list_lookup_insert_eq.
        rewrite length_insert. unfold buffer_declared in Hl. lia.
    + by apply IH.
Qed.

(** Feeding the bytes one call each is the same as one call over all of
    them, as long as none is the terminator. *)
Lemma feed_readSerial bytes : forall st,
  _term st ∉ bytes ->
  feed C st bytes =
  '(_, st', _) ← readSerial C st bytes; Ok (replicate (length bytes) 0, st').
Proof.
  induction bytes as [|b bytes IH]; intros st Ht; [done|].
  apply not_elem_of_cons in Ht as [Hb Ht].
  cbn [feed readSerial length replicate].
  destruct (decide (b = _term st)) as [|_]; [congruence|].
  destruct (isprint b).
  - destruct (decide (_bufPos st < C)) as [_|_].
    + put_char_cases. rewrite IH by done.
      by destruct (readSerial C _ bytes) as [[[? ?] ?]|].
    + simpl. rewrite IH by done.
      by destruct (readSerial C _ bytes) as [[[? ?] ?]|].
  - simpl. rewrite IH by done.
    by destruct (readSerial C _ bytes) as [[[? ?] ?]|].
Qed.

End Accumulation.

Lemma before_terminator_no_term term text : term ∉ before_terminator term text.
Proof.
  induction text as [|c text IH]; simpl; [apply not_elem_of_nil|].
  destruct (decide (c = NUL)); [apply not_elem_of_nil|].
  destruct (decide (c = term)); [apply not_elem_of_nil|].
  apply not_elem_of_cons. split; [congruence | done].
Qed.

Section Buffer.

Variable C : nat.
Variable handler : Type.
Implicit Types st : SerialCommand handler.

Lemma clearBuffer_bounded st : buffer_declared C st -> bounded C (clearBuffer st).
Proof.
  intros Hl. split; [|simpl; lia].
  unfold buffer_declared in *. simpl. by rewrite length_insert.
Qed.

Lemma clearBuffer_NUL st :
  buffer_declared C st -> _buffer (clearBuffer st) !! 0 = Some NUL.
Proof.
  unfold buffer_declared. intros Hl. simpl.
  apply list_lookup_insert_eq. lia.
Qed.

(** A byte that is neither printable nor the terminator leaves the object
    as it is. *)
Lemma readSerial_discards st b :
  isprint b = false -> b <> _term st -> readSerial C st [b] = Ok (0, st, []).
Proof.
  intros Hb Ht. simpl. destruct (decide (b = _term st)); [done|]. by rewrite Hb.
Qed.

Lemma readSerial_terminator st rest :
  readSerial C st (_term st :: rest) = Ok (_bufPos st, st, rest).
Proof. simpl. by destruct (decide (_term st = _term st)). Qed.

(** C2 (amended): bytes that hold no terminator and whose printable ones
    fit the capacity, fed one call each to an empty buffer, leave in the
    buffer exactly the printable bytes in order, null-terminated, each call
    returning 0; a byte that is neither printable nor the terminator
    changes nothing; and at the terminator [readSerial] returns the length
    and leaves the object, and so the contents, as it was, the terminator
    not stored.  That value signals a ready line exactly when at least one
    printable byte was stored; with none it is 0, the value and the object
    of a call that finds no input. *)
Theorem readSerial_accumulates_line st0 bytes rest :
  buffer_declared C st0 ->
  _term st0 ∉ bytes ->
  length (List.filter isprint bytes) <= C ->
  let line := List.filter isprint bytes in
  exists st,
    feed C (clearBuffer st0) bytes = Ok (replicate (length bytes) 0, st) ∧
    cstr (_buffer st) = line ∧
    _bufPos st = length line ∧
    _buffer st !! length line = Some NUL ∧
    (forall b, isprint b = false -> b <> _term st ->
       readSerial C st [b] = Ok (0, st, [])) ∧
    readSerial C st (_term st0 :: rest) = Ok (length line, st, rest) ∧
    (line_ready (length line) <-> line <> []) ∧
    (line = [] ->
     readSerial C st (_term st0 :: rest) = Ok (0, st, rest) ∧
     readSerial C st [] = Ok (0, st, [])).
Proof.
  intros Hl Ht Hfit line.
  assert (Hready : line_ready (length line) <-> line <> [])
    by (unfold line_ready; destruct line; simpl; split; done).
  destruct (readSerial_appends C handler bytes (clearBuffer st0))
    as (buf & E & Hlen & Htk & Hnul);
    [by apply clearBuffer_bounded | done | simpl; lia |].
  simpl in E, Htk, Hnul. fold line in E, Htk, Hnul.
  specialize (Hnul (or_introl (clearBuffer_NUL st0 Hl))).
  eexists. split.
  { rewrite feed_readSerial by done. rewrite E. reflexivity. }
  split; [|split; [done|split; [done|split]]].
  - simpl. rewrite (cstr_take buf (length line)); [done|done|].
    rewrite Htk. apply Forall_filter_isprint.
  - intros b. apply readSerial_discards.
  - split; [|split; [exact Hready|]].
    + apply (readSerial_terminator
               (set_bufPos (set_buffer (clearBuffer st0) buf) (length line))).
    + intros Hempty. split; [|done].
      rewrite <- (f_equal length Hempty) at 1.
      apply (readSerial_terminator
               (set_bufPos (set_buffer (clearBuffer st0) buf) (length line))).
Qed.

Lemma readSerial_total rx : forall st,
  bounded C st ->
  exists r buf n rx',
    readSerial C st rx = Ok (r, set_bufPos (set_buffer st buf) n, rx') ∧
    length buf = S C ∧ n <= C ∧ r <= C.
Proof.
  induction rx as [|b rx IH]; intros st [Hl Hp]; simpl.
  - exists 0, (_buffer st), (_bufPos st), []. split; [by destruct st|].
    split; [done|lia].
  - destruct (decide (b = _term st)) as [_|_].
    { exists (_bufPos st), (_buffer st), (_bufPos st), rx.
      split; [by destruct st|done]. }
    destruct (isprint b).
    + destruct (decide (_bufPos st < C)) as [Hlt|Hge].
      * rewrite (put_char_ok C handler st b Hl Hlt). simpl.
        match goal with |- context [readSerial C ?s rx] =>
          destruct (IH s) as (r & buf & k & rx' & E & ? & ? & ?) end.
        { split; [unfold buffer_declared; simpl; by rewrite !length_insert
                 | simpl; lia]. }
        exists r, buf, k, rx'. by rewrite E.
      * destruct (IH (set_bufPos st 0)) as (r & buf & k & rx' & E & ? & ? & ?).
        { split; [done | simpl; lia]. }
        exists r, buf, k, rx'. by rewrite E.
    + by apply IH.
Qed.

(** C3: from a state within the bound, [readSerial] on any input, however
    long, makes no access outside the array and ends within the bound,
    [_bufPos <= SERIALCOMMAND_BUFFER].  When the buffer is full, a printable
    byte sets the length to zero (the byte itself is dropped), and the
    bytes after it accumulate from position 0. *)
Theorem readSerial_keeps_bound st rx :
  bounded C st ->
  (exists r st' rx',
     readSerial C st rx = Ok (r, st', rx') ∧ bounded C st' ∧ r <= C) ∧
  (forall c, _bufPos st = C -> isprint c = true -> c <> _term st ->
     readSerial C st [c] = Ok (0, set_bufPos st 0, []) ∧
     forall bytes, _term st ∉ bytes -> length (List.filter isprint bytes) <= C ->
       exists st',
         readSerial C st (c :: bytes) = Ok (0, st', []) ∧
         _bufPos st' = length (List.filter isprint bytes) ∧
         take (_bufPos st') (_buffer st') = List.filter isprint bytes).
Proof.
  intros Hb. split.
  - destruct (readSerial_total rx st Hb) as (r & buf & n & rx' & E & Hl & Hn & Hr).
    exists r, (set_bufPos (set_buffer st buf) n), rx'. split; [done|].
    split; [|done]. by split.
  - intros c Hfull Hpr Hc.
    assert (E1 : forall rx', readSerial C st (c :: rx') = readSerial C (set_bufPos st 0) rx').
    { intros rx'. simpl. destruct (decide (c = _term st)) as [|_]; [done|].
      rewrite Hpr. destruct (decide (_bufPos st < C)) as [|_]; [lia|done]. }
    split; [by rewrite E1|].
    intros bytes Ht Hfit. rewrite E1.
    destruct (readSerial_appends C handler bytes (set_bufPos st 0))
      as (buf & E & Hlen & Htk & _).
    { split; [apply Hb | simpl; lia]. }
    { done. }
    { simpl. lia. }
    simpl in E, Htk. eexists. split; [exact E|]. by simpl.
Qed.


(** ** setBuffer *)

Lemma setBuffer_loop_spec text : forall st,
  bounded C st -> _buffer st !! _bufPos st = Some NUL ->
  let seen := List.filter isprint (before_terminator (_term st) text) in
  let n := _bufPos st + length (take (C - _bufPos st) seen) in
  exists buf,
    setBuffer_loop C st text = Ok (set_bufPos (set_buffer st buf) n) ∧
    length buf = S C ∧
    take n buf = take (_bufPos st) (_buffer st) ++ take (C - _bufPos st) seen ∧
    buf !! n = Some NUL.
Proof.
  induction text as [|c text IH]; intros st [Hl Hp] Hnul; simpl.
  - exists (_buffer st). rewrite take_nil, Nat.add_0_r, app_nil_r.
    split; [by destruct st|done].
  - destruct (decide (c = NUL)) as [_|Hc].
    { exists (_buffer st). simpl. rewrite take_nil, Nat.add_0_r, app_nil_r.
      split; [by destruct st|done]. }
    destruct (decide (c = _term st)) as [_|Ht].
    { exists (_buffer st). simpl. rewrite take_nil, Nat.add_0_r, app_nil_r.
      split; [by destruct st|done]. }
    simpl. destruct (isprint c) eqn:Hpr; [|by apply IH].
    destruct (decide (_bufPos st < C)) as [Hlt|Hge].
    + rewrite (put_char_ok C handler st c Hl Hlt). simpl.
      match goal with |- context [setBuffer_loop C ?s text] =>
        destruct (IH s) as (buf & E & Hlen & Htk & Hn) end.
      { split; [unfold buffer_declared; simpl; by rewrite !length_insert
               | simpl; lia]. }
      { simpl. apply list_lookup_insert_eq. rewrite length_insert.
        unfold buffer_declared in Hl. lia. }
      simpl in E, Htk, Hn.
      replace (C - _bufPos st) with (S (C - S (_bufPos st))) by lia.
      simpl.
      replace (_bufPos st + S (length (take (C - S (_bufPos st))
                 (List.filter isprint (before_terminator (_term st) text)))))
        with (S (_bufPos st + length (take (C - S (_bufPos st))
                 (List.filter isprint (before_terminator (_term st) text)))))
        by lia.
      exists buf. split; [by rewrite E|]. split; [done|]. split; [|done].
      rewrite Htk. rewrite take_insert_ge by lia.
      rewrite (take_S_r _ _ c).
      * rewrite take_insert_ge by lia. by rewrite <- app_assoc.
      * apply list_lookup_insert_eq. unfold buffer_declared in Hl. lia.
    + exists (_buffer st). replace (C - _bufPos st) with 0 by lia.
      simpl. rewrite Nat.add_0_r, app_nil_r. split; [by destruct st|done].
Qed.

Lemma setBuffer_loop_readSerial text : forall st,
  _bufPos st
    + length (List.filter isprint (before_terminator (_term st) text)) <= C ->
  setBuffer_loop C st text =
  '(_, st', _) ← readSerial C st (before_terminator (_term st) text); Ok st'.
Proof.
  induction text as [|c text IH]; intros st Hfit; simpl in *; [done|].
  destruct (decide (c = NUL)) as [_|_]; [done|].
  destruct (decide (c = _term st)) as [_|Ht]; [done|].
  simpl in *. destruct (decide (c = _term st)) as [|_]; [done|].
  destruct (isprint c); simpl in *; [|by apply IH].
  destruct (decide (_bufPos st < C)) as [_|]; [|lia].
  put_char_cases.
  match goal with |- setBuffer_loop C ?s text = _ => apply (IH s) end.
  simpl. lia.
Qed.

(** C8: [setBuffer] stores the printable characters among those before
    the first terminator (or the end of the string), but no more than the
    capacity: past it, it returns with the first [SERIALCOMMAND_BUFFER]
    of them in the buffer, the length not reset.  When they fit, the result
    is the one [readSerial] reaches on the same characters followed by the
    terminator. *)
Theorem setBuffer_truncates st text :
  buffer_declared C st ->
  let seen := List.filter isprint (before_terminator (_term st) text) in
  exists st',
    setBuffer C st text = Ok st' ∧
    cstr (_buffer st') = take C seen ∧
    _bufPos st' = length (take C seen) ∧
    (length seen <= C -> forall rest,
       readSerial C (clearBuffer st)
         (before_terminator (_term st) text ++ _term st :: rest)
       = Ok (_bufPos st', st', rest)).
Proof.
  intros Hl seen. unfold setBuffer.
  destruct (setBuffer_loop_spec text (clearBuffer st))
    as (buf & E & Hlen & Htk & Hn);
    [by apply clearBuffer_bounded | by apply (clearBuffer_NUL st) |].
  simpl in E, Htk, Hn. rewrite Nat.sub_0_r in *. fold seen in E, Htk, Hn.
  eexists. split; [exact E|]. simpl. split; [|split; [done|]].
  - rewrite (cstr_take buf (length (take C seen))); [done|done|].
    rewrite Htk. apply Forall_take, Forall_filter_isprint.
  - intros Hfit rest.
    rewrite readSerial_app by apply before_terminator_no_term.
    rewrite setBuffer_loop_readSerial in E by (simpl; fold seen; lia).
    simpl in E.
    destruct (readSerial C (clearBuffer st) (before_terminator (_term st) text))
      as [[[r st1] rx1]|]; [|done].
    simpl in E. injection E as ->. simpl.
    by destruct (decide (_term st = _term st)).
Qed.

(** ** sendData *)

Lemma port_print_log s : forall log, port_print s log = log ++ map PortWrite s.
Proof.
  induction s as [|c s IH]; intros log; simpl; [by rewrite app_nil_r|].
  rewrite IH. unfold emit. by rewrite <- app_assoc.
Qed.

Lemma serial_print_log s : forall log, serial_print s log = log ++ map SerialWrite s.
Proof.
  induction s as [|c s IH]; intros log; simpl; [by rewrite app_nil_r|].
  rewrite IH. unfold emit. by rewrite <- app_assoc.
Qed.

(** C9: whatever the message and the delimiter, [sendData] adds to the
    log, in this order: direction pin high, a delay of 500 microseconds,
    the bytes of the message, the delimiter, the flush of the port, a
    second delay of 500 microseconds, direction pin low; the echo of the
    message on [Serial] comes after these. *)
Theorem sendData_sequence st (message : cstring) (writeDelimiter : ascii) log :
  sendData st message writeDelimiter log =
  log
  ++ [DigitalWrite (_writeEnablePin st) true; DelayMicroseconds 500]
  ++ map PortWrite message
  ++ [PortWrite writeDelimiter; PortFlush; DelayMicroseconds 500;
      DigitalWrite (_writeEnablePin st) false]
  ++ map SerialWrite (message ++ ["013"%char; "010"%char]).
Proof.
  unfold sendData, serial_println.
  rewrite !serial_print_log, port_print_log. unfold emit.
  rewrite map_app. rewrite <- !app_assoc. reflexivity.
Qed.

End Buffer.

(** ** The tokenizer *)

Section Tokens.

Variable delim : cstring.

(** A list splits into its longest prefix on which [p] holds and a rest
    that does not start with such a character. *)
Lemma span_prefix (p : ascii -> bool) (l : list ascii) :
  exists a b, l = a ++ b ∧ Forall (fun c => p c = true) a ∧
              (forall c b', b = c :: b' -> p c = false).
Proof.
  induction l as [|c l (a & b & -> & Ha & Hb)].
  - exists [], []. by split; [|split].
  - destruct (p c) eqn:Hc.
    + exists (c :: a), b. split; [done|]. split; [by constructor|done].
    + exists [], (c :: a ++ b). split; [done|]. split; [constructor|].
      by intros ? ? [= <- _].
Qed.

Lemma split_tokens_delims d s :
  Forall (fun c => is_delim delim c = true) d ->
  split_tokens delim [] (d ++ s) = split_tokens delim [] s.
Proof.
  induction 1 as [|c d Hc _ IH]; simpl; [done|]. by rewrite Hc.
Qed.

Lemma split_tokens_run t : forall cur s,
  Forall (fun c => is_delim delim c = false) t ->
  split_tokens delim cur (t ++ s) = split_tokens delim (rev t ++ cur) s.
Proof.
  induction t as [|c t IH]; intros cur s Ht; simpl; [done|].
  inversion_clear Ht as [|? ? Hc Ht']. rewrite Hc, IH by done.
  by rewrite <- app_assoc.
Qed.

Lemma tokens_none d :
  Forall (fun c => is_delim delim c = true) d -> tokens delim d = [].
Proof.
  intros Hd. unfold tokens.
  rewrite <- (app_nil_r d), split_tokens_delims by done. done.
Qed.

Lemma tokens_last d t :
  Forall (fun c => is_delim delim c = true) d ->
  Forall (fun c => is_delim delim c = false) t -> t <> [] ->
  tokens delim (d ++ t) = [t].
Proof.
  intros Hd Ht Hne. unfold tokens. rewrite split_tokens_delims by done.
  rewrite <- (app_nil_r t) at 1. rewrite split_tokens_run by done.
  simpl. rewrite app_nil_r.
  destruct (rev t) eqn:E; [|by rewrite <- E, rev_involutive].
  destruct Hne. by rewrite <- (rev_involutive t), E.
Qed.

Lemma tokens_more d t c s :
  Forall (fun c => is_delim delim c = true) d ->
  Forall (fun c => is_delim delim c = false) t -> t <> [] ->
  is_delim delim c = true ->
  tokens delim (d ++ t ++ c :: s) = t :: tokens delim s.
Proof.
  intros Hd Ht Hne Hc. unfold tokens. rewrite split_tokens_delims by done.
  rewrite split_tokens_run by done. simpl. rewrite Hc, app_nil_r.
  destruct (rev t) eqn:E; [|by rewrite <- E, rev_involutive].
  destruct Hne. by rewrite <- (rev_involutive t), E.
Qed.

Lemma line_shape_total s : line_shape delim s.
Proof.
  destruct (span_prefix (is_delim delim) s) as (d & r & -> & Hd & Hr).
  destruct (span_prefix (fun c => negb (is_delim delim c)) r)
    as (t & r' & -> & Ht & Hr').
  assert (Ht' : Forall (fun c => is_delim delim c = false) t).
  { apply (Forall_impl _ _ _ Ht). intros c. by destruct (is_delim delim c). }
  destruct t as [|c0 t].
  - destruct r' as [|c r'].
    + apply shape_none. by rewrite app_nil_r.
    + specialize (Hr c r' eq_refl). specialize (Hr' c r' eq_refl).
      rewrite Hr in Hr'. done.
  - destruct r' as [|c r'].
    + eapply shape_last; [by rewrite app_nil_r|done..].
    + eapply shape_more; [done..|].
      specialize (Hr' c r' eq_refl). by destruct (is_delim delim c).
Qed.

(** [strspn] and [strcspn] on memory that starts with a known run. *)
Lemma strspn_run d m :
  valid_cstring d -> Forall (fun c => is_delim delim c = true) d ->
  (forall c m', m = c :: m' -> c = NUL ∨ is_delim delim c = false) ->
  m <> [] ->
  strspn (d ++ m) delim = Ok (length d).
Proof.
  unfold valid_cstring. intros Hv Hd Hm Hne.
  induction Hd as [|c d Hc _ IH]; simpl.
  - destruct m as [|c m]; [done|]. simpl.
    destruct (decide (c = NUL)); [done|].
    destruct (Hm c m eq_refl) as [? | ->]; done.
  - apply not_elem_of_cons in Hv as [Hn Hv].
    destruct (decide (c = NUL)); [congruence|]. by rewrite Hc, IH.
Qed.

Lemma strcspn_run t m :
  valid_cstring t -> Forall (fun c => is_delim delim c = false) t ->
  (forall c m', m = c :: m' -> c = NUL ∨ is_delim delim c = true) ->
  m <> [] ->
  strcspn (t ++ m) delim = Ok (length t).
Proof.
  unfold valid_cstring. intros Hv Ht Hm Hne.
  induction Ht as [|c t Hc _ IH]; simpl.
  - destruct m as [|c m]; [done|]. simpl.
    destruct (decide (c = NUL)); [done|].
    destruct (Hm c m eq_refl) as [? | ->]; done.
  - apply not_elem_of_cons in Hv as [Hn Hv].
    destruct (decide (c = NUL)); [congruence|]. by rewrite Hc, IH.
Qed.

End Tokens.

Lemma load_drop buf i k : load buf (i + k) = load (drop i buf) k.
Proof. unfold load. by rewrite lookup_drop. Qed.

Lemma load_middle (l1 : list ascii) x l2 : load (l1 ++ x :: l2) (length l1) = Ok x.
Proof. unfold load. by rewrite list_lookup_middle. Qed.

Lemma load_app_r (l1 l2 : list ascii) k : load (l1 ++ l2) (length l1 + k) = load l2 k.
Proof.
  unfold load. rewrite lookup_app_r by lia.
  by replace (length l1 + k - length l1) with k by lia.
Qed.

Lemma drop_decomp (buf a b : list ascii) i :
  drop i buf = a ++ b -> drop (i + length a) buf = b.
Proof. intros H. by rewrite <- drop_drop, H, drop_app_length. Qed.

Lemma valid_app a b : valid_cstring (a ++ b) <-> valid_cstring a ∧ valid_cstring b.
Proof. unfold valid_cstring. rewrite !elem_of_app. tauto. Qed.

Lemma valid_cons c a : valid_cstring (c :: a) <-> c <> NUL ∧ valid_cstring a.
Proof. unfold valid_cstring. rewrite not_elem_of_cons. firstorder. Qed.

Lemma cstr_insert_ge m : forall e,
  length (cstr m) <= e -> cstr (<[e := NUL]> m) = cstr m.
Proof.
  induction m as [|c m IH]; intros e He; [done|].
  simpl in He. destruct (decide (c = NUL)) as [->|Hc].
  - destruct e; simpl; [done|]. by destruct (decide (NUL = NUL)).
  - destruct e; simpl in *; [lia|].
    destruct (decide (c = NUL)); [done|]. rewrite IH by lia. done.
Qed.

Lemma cstr_at_insert_ge buf k e :
  k + length (cstr_at buf k) <= e ->
  cstr_at (<[e := NUL]> buf) k = cstr_at buf k.
Proof.
  unfold cstr_at. intros He. rewrite drop_insert_ge by lia.
  apply cstr_insert_ge. lia.
Qed.

(** One call of [strtok_r] at position [i], where the rest of the line is
    [s]: it returns the first token of [s], if there is one, and leaves the
    saved pointer before what follows it. *)
Lemma strtok_r_spec delim buf s rest sarg save i :
  resume sarg save = Some i ->
  drop i buf = s ++ NUL :: rest -> valid_cstring s ->
  exists tok buf' j s',
    strtok_r buf sarg delim save = Ok (tok, buf', Some j) ∧
    (buf' = buf ∨ exists e, i <= e ∧ buf' = <[e := NUL]> buf) ∧
    drop j buf' = s' ++ NUL :: rest ∧ valid_cstring s' ∧
    (fun k => cstr_at buf' k) <$> tok = head (tokens delim s) ∧
    tokens delim s' = tail (tokens delim s) ∧
    (forall k, tok = Some k -> i <= k ∧ k + length (cstr_at buf' k) <= j) ∧
    (tok = None -> Forall (fun c => is_delim delim c = true) s).
Proof.
  intros Hres Hdrop Hv.
  assert (Hstart : forall B (k : nat -> result B),
    (match sarg, save with
     | Some i, _ => Ok i | None, Some i => Ok i
     | None, None => Fault NullDereference end ≫= k) = k i).
  { intros B k. destruct sarg as [?|], save as [?|]; simpl in Hres;
      try injection Hres as ->; done. }
  unfold strtok_r. rewrite Hstart. clear Hstart.
  destruct (line_shape_total delim s) as [Hd | d t -> Hd Ht Hne | d t c s' -> Hd Ht Hne Hc].
  - (* only delimiters *)
    rewrite Hdrop, (strspn_run delim s (NUL :: rest)); [|done|done| |done].
    2:{ intros ? ? [= <- _]. by left. }
    simpl. rewrite load_drop, Hdrop, load_middle. simpl.
    destruct (decide (NUL = NUL)); [|done].
    exists None, buf, (i + length s), []. split; [done|]. split; [by left|].
    rewrite (drop_decomp _ _ _ _ Hdrop).
    rewrite (tokens_none delim s Hd). split; [done|]. split; [apply not_elem_of_nil|].
    by split; [|split; [|split]].
  - (* a last token *)
    apply valid_app in Hv as [Hvd Hvt].
    destruct t as [|c0 t0]; [done|]. apply valid_cons in Hvt as Hvt'.
    destruct Hvt' as [Hc0 _]. inversion Ht as [|? ? Hc0d _]; subst.
    rewrite <- app_assoc in Hdrop. simpl in Hdrop.
    rewrite Hdrop, (strspn_run delim d); [|done|done| |done].
    2:{ intros ? ? [= <- _]. by right. }
    simpl. rewrite load_drop, Hdrop, load_middle. simpl.
    destruct (decide (c0 = NUL)) as [|_]; [done|].
    rewrite (drop_decomp _ _ _ _ Hdrop).
    assert (E1 : strcspn (c0 :: t0 ++ NUL :: rest) delim = Ok (S (length t0))).
    { apply (strcspn_run delim (c0 :: t0) (NUL :: rest)); [done|done| |done].
      intros ? ? [= <- _]. by left. }
    assert (E2 : load (c0 :: t0 ++ NUL :: rest) (S (length t0)) = Ok NUL)
      by apply (load_middle (c0 :: t0) NUL rest).
    rewrite E1. simpl.
    rewrite <- Nat.add_assoc, load_drop, Hdrop, load_app_r, E2. simpl.
    destruct (decide (NUL = NUL)); [|done].
    assert (Hcs : cstr_at buf (i + length d) = c0 :: t0).
    { unfold cstr_at. rewrite (drop_decomp _ _ _ _ Hdrop).
      by apply (cstr_app_NUL (c0 :: t0)). }
    exists (Some (i + length d)), buf, (i + (length d + S (length t0))), [].
    split; [done|]. split; [by left|]. split.
    { assert (Hd2 : drop i buf = (d ++ c0 :: t0) ++ NUL :: rest)
        by (by rewrite Hdrop, <- app_assoc).
      apply drop_decomp in Hd2. rewrite length_app in Hd2.
      simpl in Hd2. by rewrite <- Hd2. }
    split; [apply not_elem_of_nil|].
    rewrite (tokens_last delim d (c0 :: t0)) by done. simpl.
    split; [by rewrite Hcs|]. split; [done|]. split; [|done].
    intros k [= <-]. rewrite Hcs. simpl. lia.
  - (* a token and more *)
    apply valid_app in Hv as [Hvd Hv]. apply valid_app in Hv as [Hvt Hv].
    apply valid_cons in Hv as [HcN Hvs'].
    destruct t as [|c0 t0]; [done|]. apply valid_cons in Hvt as Hvt'.
    destruct Hvt' as [Hc0 _]. inversion Ht as [|? ? Hc0d _]; subst.
    rewrite <- !app_assoc in Hdrop. simpl in Hdrop.
    rewrite Hdrop, (strspn_run delim d); [|done|done| |done].
    2:{ intros ? ? [= <- _]. by right. }
    simpl. rewrite load_drop, Hdrop, load_middle. simpl.
    destruct (decide (c0 = NUL)) as [|_]; [done|].
    rewrite (drop_decomp _ _ _ _ Hdrop).
    assert (E1 : strcspn (c0 :: t0 ++ c :: s' ++ NUL :: rest) delim
                 = Ok (S (length t0))).
    { apply (strcspn_run delim (c0 :: t0) (c :: s' ++ NUL :: rest));
        [done|done| |done].
      intros ? ? [= <- _]. by right. }
    assert (E2 : load (c0 :: t0 ++ c :: s' ++ NUL :: rest) (S (length t0)) = Ok c)
      by apply (load_middle (c0 :: t0) c (s' ++ NUL :: rest)).
    rewrite E1. simpl.
    rewrite <- Nat.add_assoc, load_drop, Hdrop, load_app_r, E2. simpl.
    destruct (decide (c = NUL)) as [|_]; [done|].
    set (e := i + (length d + S (length t0))).
    assert (He : e < length buf).
    { apply (f_equal length) in Hdrop. rewrite length_drop in Hdrop.
      rewrite !length_app in Hdrop. simpl in Hdrop.
      rewrite length_app in Hdrop. simpl in Hdrop. unfold e. lia. }
    unfold store. destruct (decide (e < length buf)) as [_|]; [|done]. simpl.
    assert (Hcs : cstr_at (<[e:=NUL]> buf) (i + length d) = c0 :: t0).
    { unfold cstr_at. rewrite drop_insert_ge by (unfold e; lia).
      rewrite (drop_decomp _ _ _ _ Hdrop).
      replace (e - (i + length d)) with (length (c0 :: t0) + 0)
        by (unfold e; simpl; lia).
      change (c0 :: t0 ++ c :: s' ++ NUL :: rest)
        with ((c0 :: t0) ++ c :: s' ++ NUL :: rest).
      rewrite (insert_app_r (c0 :: t0)).
      by apply (cstr_app_NUL (c0 :: t0)). }
    exists (Some (i + length d)), (<[e:=NUL]> buf), (S e), s'.
    split; [done|]. split; [right; exists e; split; [unfold e; lia | done]|].
    split.
    { rewrite drop_insert_lt by lia. unfold e.
      assert (Hd2 : drop i buf = (d ++ (c0 :: t0) ++ [c]) ++ s' ++ NUL :: rest)
        by (rewrite Hdrop, <- !app_assoc; simpl; by rewrite <- ?app_assoc).
      apply drop_decomp in Hd2. rewrite !length_app in Hd2.
      simpl in Hd2. rewrite <- Hd2. f_equal. lia. }
    split; [done|].
    pose proof (tokens_more delim d (c0 :: t0) c s' Hd Ht Hne Hc) as Etok.
    cbn [app] in Etok. rewrite Etok. simpl.
    split; [by rewrite Hcs|]. split; [done|]. split; [|done].
    intros k [= <-]. rewrite Hcs. unfold e. simpl. lia.
Qed.

Lemma cstr_idem m : cstr (cstr m) = cstr m.
Proof.
  induction m as [|c m IH]; simpl; [done|].
  destruct (decide (c = NUL)) as [|Hc]; [done|]. simpl.
  destruct (decide (c = NUL)); [done|]. by rewrite IH.
Qed.

Section Dispatch.

Variable handler : Type.
Implicit Types st : SerialCommand handler.

(** One tokenizer step of the object, from the position [i] where the rest
    of the line is [s]. *)
Lemma tokenize_spec st sarg i s rest :
  resume sarg (_last st) = Some i ->
  drop i (_buffer st) = s ++ NUL :: rest -> valid_cstring s ->
  exists tok buf' j s',
    tokenize st sarg = Ok (tok, set_last (set_buffer st buf') (Some j)) ∧
    (buf' = _buffer st ∨ exists e, i <= e ∧ buf' = <[e := NUL]> (_buffer st)) ∧
    drop j buf' = s' ++ NUL :: rest ∧ valid_cstring s' ∧
    (fun k => cstr_at buf' k) <$> tok = head (tokens (_delim st) s) ∧
    tokens (_delim st) s' = tail (tokens (_delim st) s) ∧
    (forall k, tok = Some k -> i <= k ∧ k + length (cstr_at buf' k) <= j) ∧
    (tok = None -> Forall (fun c => is_delim (_delim st) c = true) s).
Proof.
  intros Hres Hdrop Hv.
  destruct (strtok_r_spec (_delim st) _ _ _ _ _ _ Hres Hdrop Hv)
    as (tok & buf' & j & s' & E & H).
  exists tok, buf', j, s'. split; [|exact H].
  unfold tokenize. by rewrite E.
Qed.

(** The two calls at the head of [processCommand] on a completed line. *)
Lemma first_two_tokens st line :
  holds_line st line ->
  exists nm st1 identifier buf j s,
    let st2 := set_last (set_buffer st buf) (Some j) in
    tokenize st (Some 0) = Ok (nm, st1) ∧
    tokenize st1 None = Ok (identifier, st2) ∧
    token_at st2 nm = head (tokens (_delim st) line) ∧
    token_at st2 identifier = head (tail (tokens (_delim st) line)) ∧
    cursor_before st2 s ∧
    tokens (_delim st) s = tail (tail (tokens (_delim st) line)).
Proof.
  intros (Hv & rest & Hbuf).
  destruct (tokenize_spec st (Some 0) 0 line rest eq_refl Hbuf Hv)
    as (nm & buf1 & j1 & s1 & E1 & Hfr1 & Hd1 & Hv1 & Ht1 & Hs1 & Hk1 & _).
  set (st1 := set_last (set_buffer st buf1) (Some j1)) in *.
  destruct (tokenize_spec st1 None j1 s1 rest eq_refl Hd1 Hv1)
    as (id & buf2 & j2 & s2 & E2 & Hfr2 & Hd2 & Hv2 & Ht2 & Hs2 & Hk2 & _).
  simpl in *.
  exists nm, st1, id, buf2, j2, s2. simpl.
  split; [done|]. split; [done|]. split; [|split; [|split]].
  - rewrite <- Ht1. unfold token_at. simpl.
    destruct nm as [k|]; [simpl|done].
    destruct (Hk1 k eq_refl) as [_ Hk].
    destruct Hfr2 as [->|(e & He & ->)]; [done|].
    by rewrite cstr_at_insert_ge by lia.
  - unfold token_at. simpl. by rewrite Ht2, Hs1.
  - split; [done|]. by exists j2, rest.
  - by rewrite Hs2, Hs1.
Qed.

(** C1 (the code departs from the claim): on a completed line with fewer
    than two tokens and with a device type configured, [processCommand]
    passes the null identifier pointer to [strcmp], which reads through
    it: the identity comparison is not a non-match but a null
    dereference. *)
Theorem processCommand_short_line_faults st line dt :
  holds_line st line ->
  length (tokens (_delim st) line) < 2 ->
  _device_type st = Some dt ->
  processCommand st = Fault NullDereference.
Proof.
  intros Hline Hshort Hdt.
  destruct (first_two_tokens st line Hline)
    as (nm & st1 & id & buf & j & s & E1 & E2 & _ & Hid & _).
  unfold processCommand. rewrite E1. simpl. rewrite E2. simpl. rewrite Hdt.
  simpl in Hid. rewrite Hid.
  destruct (tokens (_delim st) line) as [|t1 [|t2 ts]]; simpl in *; [done|done|lia].
Qed.

(** C4: on a completed line, when no device type is configured, or when
    the second token is present and differs from the configured device
    type, [processCommand] returns normally and calls no handler, neither
    a registered one nor the default one. *)
Theorem processCommand_filters_device st line :
  holds_line st line ->
  _device_type st = None ∨
  (exists nm id more dt,
     tokens (_delim st) line = nm :: id :: more ∧
     _device_type st = Some dt ∧ valid_cstring dt ∧ id <> dt) ->
  exists st', processCommand st = Ok ([], st').
Proof.
  intros Hline Hcase.
  destruct (first_two_tokens st line Hline)
    as (nm & st1 & id & buf & j & s & E1 & E2 & _ & Hid & _).
  unfold processCommand. rewrite E1. simpl. rewrite E2. simpl.
  destruct Hcase as [-> | (n & i & more & dt & Htok & -> & Hvdt & Hne)];
    [by eexists|].
  simpl in Hid. rewrite Hid, Htok. simpl.
  destruct (decide (strcmp i dt = 0%Z)) as [Heq|_]; [|by eexists].
  apply strcmp_zero in Heq. rewrite (cstr_valid dt Hvdt) in Heq.
  rewrite Htok in Hid. simpl in Hid. unfold token_at in Hid.
  destruct id as [k|]; [|done]. simpl in Hid. injection Hid as Hi.
  rewrite <- Hi in Heq. unfold cstr_at in Heq. rewrite cstr_idem in Heq.
  destruct Hne. rewrite <- Hi. exact Heq.
Qed.

(** ** Lookup *)

Lemma scan_commands_first nm (pre : list (CommandInfo handler)) c post :
  valid_cstring nm ->
  Forall (fun c => exists n, name c = Some n ∧ valid_cstring n) pre ->
  Forall (fun c' => name c' <> Some nm) pre ->
  name c = Some nm ->
  scan_commands nm (pre ++ c :: post) = Ok (Some c).
Proof.
  intros Hv Hnamed Hpre Hc.
  induction pre as [|c' pre IH]; simpl.
  - rewrite Hc. destruct (decide (strcmp nm nm = 0%Z)) as [|Hne]; [done|].
    destruct Hne. by apply strcmp_zero.
  - inversion_clear Hnamed as [|? ? (n & Hn & Hvn) Hnamed'].
    inversion_clear Hpre as [|? ? Hc' Hpre'].
    rewrite Hn. destruct (decide (strcmp nm n = 0%Z)) as [Heq|_]; [|by apply IH].
    apply strcmp_eq in Heq; [|done..]. congruence.
Qed.

Lemma scan_commands_none nm (l : list (CommandInfo handler)) :
  valid_cstring nm ->
  Forall (fun c => exists n, name c = Some n ∧ valid_cstring n) l ->
  Forall (fun c' => name c' <> Some nm) l ->
  scan_commands nm l = Ok None.
Proof.
  intros Hv Hnamed Hl.
  induction l as [|c' l IH]; simpl; [done|].
  inversion_clear Hnamed as [|? ? (n & Hn & Hvn) Hnamed'].
  inversion_clear Hl as [|? ? Hc' Hl'].
  rewrite Hn. destruct (decide (strcmp nm n = 0%Z)) as [Heq|_]; [|by apply IH].
  apply strcmp_eq in Heq; [|done..]. congruence.
Qed.

(** C5: with every registered name a C string, the lookup of a non-null
    name selects the first entry, from the front, whose name equals it
    character for character.  With no such entry, the current command gets
    the default handler together with the name looked up; [runCommand]
    then calls nothing when the default handler is null, and otherwise
    calls it with an object whose current command carries that name. *)
Theorem lookupCommandByName_first_match st nm :
  registry_named st -> valid_cstring nm ->
  (forall pre c post,
     _commandList st = pre ++ c :: post ->
     Forall (fun c' => name c' <> Some nm) pre ->
     name c = Some nm ->
     lookupCommandByName st (Some nm) = Ok (set_current_command st c)) ∧
  (Forall (fun c' => name c' <> Some nm) (_commandList st) ->
   let st' := set_current_command st
                {| name := Some nm; function := function (_default_command st) |} in
   lookupCommandByName st (Some nm) = Ok st' ∧
   (function (_default_command st) = None -> runCommand st' = []) ∧
   (forall f, function (_default_command st) = Some f ->
      runCommand st' = [{| callee := f; self := st' |}] ∧
      name (_current_command st') = Some nm)).
Proof.
  unfold registry_named. intros Hnamed Hv. split.
  - intros pre c post Hl Hpre Hc. unfold lookupCommandByName.
    rewrite Hl in *. apply Forall_app in Hnamed as [Hnamed _].
    by rewrite (scan_commands_first nm pre c post).
  - intros Hnone. split; [|split].
    + unfold lookupCommandByName. by rewrite scan_commands_none.
    + intros Hf. unfold runCommand. simpl. by rewrite Hf.
    + intros f Hf. unfold runCommand. simpl. by rewrite Hf.
Qed.

Lemma next_spec st s :
  cursor_before st s ->
  exists tok st' s',
    next st = Ok (tok, st') ∧
    token_at st' tok = head (tokens (_delim st) s) ∧
    (tok = None <-> tokens (_delim st) s = []) ∧
    (tok = None <-> Forall (fun c => is_delim (_delim st) c = true) s) ∧
    cursor_before st' s' ∧ _delim st' = _delim st ∧
    tokens (_delim st) s' = tail (tokens (_delim st) s).
Proof.
  intros (Hv & j & rest & Hlast & Hdrop).
  destruct (tokenize_spec st None j s rest) as
    (tok & buf' & j' & s' & E & _ & Hd' & Hv' & Ht & Hs & _ & HN); [by rewrite Hlast|done..|].
  exists tok, (set_last (set_buffer st buf') (Some j')), s'.
  split; [done|]. split; [done|].
  assert (Hnone : tok = None <-> tokens (_delim st) s = []).
  { rewrite <- head_None, <- Ht. by destruct tok. }
  split; [done|]. split.
  { split; [done|]. intros Hall. apply Hnone. by apply tokens_none. }
  split; [|done]. split; [done|]. by exists j', rest.
Qed.

Lemma clearBuffer_idem st : clearBuffer (clearBuffer st) = clearBuffer st.
Proof. unfold clearBuffer. simpl. by rewrite list_insert_insert_eq. Qed.

(** The state after a dispatch cycle is a cleared one. *)
Lemma processCommand_cleared st calls st' :
  processCommand st = Ok (calls, st') -> clearBuffer st' = st'.
Proof.
  unfold processCommand.
  destruct (tokenize st (Some 0)) as [[nm st1]|]; [simpl|done].
  destruct (tokenize st1 None) as [[id st2]|]; [simpl|done].
  destruct (_device_type st2) as [dt|]; [|intros [= _ <-]; apply clearBuffer_idem].
  destruct (strcmp_ptr (token_at st2 id) dt) as [d|]; [simpl|done].
  destruct (decide (d = 0%Z)); [|intros [= _ <-]; apply clearBuffer_idem].
  destruct (lookupCommandByName st2 (token_at st2 nm)) as [st3|]; [simpl|done].
  intros [= _ <-]. apply clearBuffer_idem.
Qed.

End Dispatch.

(** ** clearBuffer *)

Section Clear.

Variable C : nat.
Variable handler : Type.
Implicit Types st : SerialCommand handler.

(** C7 (amended): [clearBuffer] is idempotent.  After it, and so after it
    ran twice or at the end of a dispatch cycle, the buffer is empty:
    the length is 0 and position 0 holds NUL.  The tokenizer cursor [_last]
    is left as it was: [clearBuffer] does not reset it. *)
Theorem clearBuffer_idempotent st :
  buffer_declared C st ->
  clearBuffer (clearBuffer st) = clearBuffer st ∧
  _bufPos (clearBuffer st) = 0 ∧
  _buffer (clearBuffer st) !! 0 = Some NUL ∧
  cstr (_buffer (clearBuffer st)) = [] ∧
  _last (clearBuffer st) = _last st ∧
  (forall calls st',
     processCommand st = Ok (calls, st') ->
     clearBuffer st' = st' ∧ _bufPos st' = 0 ∧ cstr (_buffer st') = []).
Proof.
  intros Hl.
  assert (Hempty : forall s : SerialCommand handler,
            cstr (_buffer (clearBuffer s)) = []).
  { intros s. simpl. destruct (_buffer s) as [|c b]; [done|]. simpl.
    by destruct (decide (NUL = NUL)). }
  split; [apply clearBuffer_idem|]. split; [done|].
  split; [by apply (clearBuffer_NUL C)|]. split; [apply Hempty|].
  split; [done|].
  intros calls st' Hrun. apply processCommand_cleared in Hrun.
  split; [done|]. rewrite <- Hrun. split; [done | apply Hempty].
Qed.

End Clear.

(** ** The example line *)

(** C6: the buffer contents "OPEN DEV1 arg1 arg2" give the tokens "OPEN" and
    "DEV1" to the two [strtok_r] calls of [processCommand], and "arg1",
    "arg2" and then NULL to the handler's calls of [next()]; all four stay
    readable until the buffer is cleared.  In general, with the cursor
    before the part [s] of the line, [next()] returns the first token of
    [s] and moves the cursor before what follows it, and it returns NULL
    exactly when [s] has no token, that is when [s] has only delimiters. *)
Theorem next_enumerates_tokens :
  (exists st1 st2 stf inv st3 st4 st5,
     let st := demo_state "OPEN DEV1 arg1 arg2" in
     cstr (_buffer st) = str "OPEN DEV1 arg1 arg2" ∧
     tokenize st (Some 0) = Ok (Some 0, st1) ∧
     token_at st1 (Some 0) = Some (str "OPEN") ∧
     tokenize st1 None = Ok (Some 5, st2) ∧
     token_at st2 (Some 5) = Some (str "DEV1") ∧
     processCommand st = Ok ([inv], stf) ∧
     callee inv = handlerA ∧
     next (self inv) = Ok (Some 10, st3) ∧
     token_at st3 (Some 10) = Some (str "arg1") ∧
     next st3 = Ok (Some 15, st4) ∧
     token_at st4 (Some 15) = Some (str "arg2") ∧
     next st4 = Ok (None, st5) ∧
     map (fun p => token_at st5 (Some p)) [0; 5; 10; 15] =
       map (fun t => Some (str t)) ["OPEN"; "DEV1"; "arg1"; "arg2"]%string) ∧
  (forall (handler : Type) (st : SerialCommand handler) (s : cstring),
     cursor_before st s ->
     exists tok st' s',
       next st = Ok (tok, st') ∧
       token_at st' tok = head (tokens (_delim st) s) ∧
       (tok = None <-> tokens (_delim st) s = []) ∧
       (tok = None <-> Forall (fun c => is_delim (_delim st) c = true) s) ∧
       cursor_before st' s' ∧ _delim st' = _delim st ∧
       tokens (_delim st) s' = tail (tokens (_delim st) s)).
Proof.
  split; [|apply next_spec].
  do 7 eexists. cbv zeta.
  repeat match goal with |- _ ∧ _ => split end; vm_compute; reflexivity.
Qed.

(** ** The statements at the example device *)

Lemma valid_cstring_compute (s : cstring) : bool_decide (NUL ∉ s) = true -> valid_cstring s.
Proof. intros H. by apply bool_decide_eq_true in H. Defined.

Lemma processCommand_short_line_faults_witness :
  holds_line (demo_state "OPEN") (str "OPEN") ∧
  length (tokens (_delim (demo_state "OPEN")) (str "OPEN")) < 2 ∧
  _device_type (demo_state "OPEN") = Some (str "DEV1") ∧
  processCommand (demo_state "OPEN") = Fault NullDereference.
Proof.
  assert (H1 : holds_line (demo_state "OPEN") (str "OPEN")).
  { split; [by apply valid_cstring_compute|].
    exists (replicate 28 "#"%char). reflexivity. }
  assert (H2 : length (tokens (_delim (demo_state "OPEN")) (str "OPEN")) < 2)
    by (vm_compute; lia).
  split; [exact H1|]. split; [exact H2|]. split; [reflexivity|].
  apply (processCommand_short_line_faults demo_handler (demo_state "OPEN")
           (str "OPEN") (str "DEV1") H1 H2 eq_refl).
Defined.

Lemma readSerial_accumulates_line_witness :
  buffer_declared 32 demo_device ∧
  (_term demo_device ∉ demo_bytes) ∧
  length (List.filter isprint demo_bytes) <= 32 ∧
  exists st,
    feed 32 (clearBuffer demo_device) demo_bytes = Ok (replicate 10 0, st) ∧
    cstr (_buffer st) = str "OPEN DEV1" ∧
    readSerial 32 st ["010"%char] = Ok (9, st, []) ∧
    line_ready 9.
Proof.
  assert (H1 : buffer_declared 32 demo_device) by reflexivity.
  assert (H2 : _term demo_device ∉ demo_bytes)
    by (apply (bool_decide_unpack _); vm_compute; exact I).
  assert (H3 : length (List.filter isprint demo_bytes) <= 32)
    by (vm_compute; lia).
  split; [exact H1|]. split; [exact H2|]. split; [exact H3|].
  destruct (readSerial_accumulates_line 32 demo_handler demo_device demo_bytes []
              H1 H2 H3) as (st & Hfeed & Hline & _ & _ & _ & Hterm & Hready & _).
  exists st. split; [exact Hfeed|]. split; [exact Hline|].
  split; [exact Hterm|]. apply Hready. discriminate.
Defined.

Lemma readSerial_keeps_bound_witness :
  bounded 32 (demo_state demo_full) ∧
  (exists r st' rx',
     readSerial 32 (demo_state demo_full) (str "AB") = Ok (r, st', rx') ∧
     bounded 32 st' ∧ r <= 32) ∧
  readSerial 32 (demo_state demo_full) ["A"%char]
  = Ok (0, set_bufPos (demo_state demo_full) 0, []).
Proof.
  assert (H1 : bounded 32 (demo_state demo_full))
    by (split; [reflexivity | vm_compute; lia]).
  split; [exact H1|].
  destruct (readSerial_keeps_bound 32 demo_handler (demo_state demo_full)
              (str "AB") H1) as [Hok Hfull].
  split; [exact Hok|].
  assert (H2 : _bufPos (demo_state demo_full) = 32) by (vm_compute; reflexivity).
  assert (H3 : "A"%char <> _term (demo_state demo_full))
    by (intros E; vm_compute in E; discriminate E).
  destruct (Hfull "A"%char H2 eq_refl H3) as [Hreset _]. exact Hreset.
Defined.

Lemma processCommand_filters_device_witness :
  holds_line (demo_state "OPEN DEV2") (str "OPEN DEV2") ∧
  tokens (_delim (demo_state "OPEN DEV2")) (str "OPEN DEV2")
    = [str "OPEN"; str "DEV2"] ∧
  _device_type (demo_state "OPEN DEV2") = Some (str "DEV1") ∧
  str "DEV2" <> str "DEV1" ∧
  exists st', processCommand (demo_state "OPEN DEV2") = Ok ([], st').
Proof.
  assert (H1 : holds_line (demo_state "OPEN DEV2") (str "OPEN DEV2")).
  { split; [by apply valid_cstring_compute|].
    exists (replicate 23 "#"%char). reflexivity. }
  assert (H2 : str "DEV2" <> str "DEV1") by discriminate.
  split; [exact H1|]. split; [reflexivity|]. split; [reflexivity|].
  split; [exact H2|].
  apply (processCommand_filters_device demo_handler _ _ H1). right.
  exists (str "OPEN"), (str "DEV2"), [], (str "DEV1").
  split; [reflexivity|]. split; [reflexivity|].
  split; [by apply valid_cstring_compute | exact H2].
Defined.

Lemma lookupCommandByName_first_match_witness :
  registry_named demo_device ∧
  valid_cstring (str "CLOSE") ∧
  lookupCommandByName demo_device (Some (str "STATUS"))
  = Ok (set_current_command demo_device
          {| name := Some (str "STATUS"); function := Some handlerB |}) ∧
  lookupCommandByName demo_device (Some (str "CLOSE"))
  = Ok (set_current_command demo_device
          {| name := Some (str "CLOSE"); function := Some fallback |}).
Proof.
  assert (H1 : registry_named demo_device).
  { repeat constructor; eexists; (split; [reflexivity|]);
      by apply valid_cstring_compute. }
  assert (H2 : valid_cstring (str "CLOSE")) by (by apply valid_cstring_compute).
  assert (H3 : valid_cstring (str "STATUS")) by (by apply valid_cstring_compute).
  split; [exact H1|]. split; [exact H2|]. split.
  - destruct (lookupCommandByName_first_match demo_handler demo_device
                (str "STATUS") H1 H3) as [Hfirst _].
    apply (Hfirst [{| name := Some (str "OPEN"); function := Some handlerA |}]
             {| name := Some (str "STATUS"); function := Some handlerB |} []);
      [reflexivity | | reflexivity].
    repeat constructor. discriminate.
  - destruct (lookupCommandByName_first_match demo_handler demo_device
                (str "CLOSE") H1 H2) as [_ Hnone].
    apply Hnone. repeat constructor; discriminate.
Defined.

Lemma next_enumerates_tokens_witness :
  cursor_before (demo_tokenized "OPEN DEV1 arg1 arg2") (str "arg1 arg2") ∧
  exists tok st' s',
    next (demo_tokenized "OPEN DEV1 arg1 arg2") = Ok (tok, st') ∧
    token_at st' tok = Some (str "arg1") ∧
    cursor_before st' s' ∧
    tokens [" "%char] s' = [str "arg2"].
Proof.
  assert (H1 : cursor_before (demo_tokenized "OPEN DEV1 arg1 arg2")
                 (str "arg1 arg2")).
  { split; [by apply valid_cstring_compute|].
    exists 10, (replicate 13 "#"%char). split; reflexivity. }
  split; [exact H1|].
  destruct (proj2 next_enumerates_tokens demo_handler _ _ H1)
    as (tok & st' & s' & Hnext & Htok & _ & _ & Hcur & _ & Hrest).
  exists tok, st', s'. split; [exact Hnext|]. split; [exact Htok|].
  split; [exact Hcur | exact Hrest].
Defined.

Lemma clearBuffer_idempotent_witness :
  buffer_declared 32 (demo_state "OPEN DEV1") ∧
  clearBuffer (clearBuffer (demo_state "OPEN DEV1"))
  = clearBuffer (demo_state "OPEN DEV1") ∧
  _bufPos (clearBuffer (demo_state "OPEN DEV1")) = 0 ∧
  _buffer (clearBuffer (demo_state "OPEN DEV1")) !! 0 = Some NUL.
Proof.
  assert (H1 : buffer_declared 32 (demo_state "OPEN DEV1")) by reflexivity.
  split; [exact H1|].
  destruct (clearBuffer_idempotent 32 demo_handler _ H1)
    as (Hidem & Hpos & Hnul & _).
  split; [exact Hidem|]. split; [exact Hpos | exact Hnul].
Defined.

Lemma setBuffer_truncates_witness :
  buffer_declared 32 demo_device ∧
  exists st',
    setBuffer 32 demo_device (str demo_long) = Ok st' ∧
    cstr (_buffer st') = str demo_full ∧
    _bufPos st' = 32.
Proof.
  assert (H1 : buffer_declared 32 demo_device) by reflexivity.
  split; [exact H1|].
  destruct (setBuffer_truncates 32 demo_handler demo_device (str demo_long) H1)
    as (st' & Hset & Hline & Hpos & _).
  exists st'. split; [exact Hset|]. split; [exact Hline | exact Hpos].
Defined.


(** C2, as stated, fails on a line with no printable byte: after the
    single byte TAB, which has no terminator and an empty printable part,
    the terminator makes [readSerial] return 0, which does not signal a
    ready line; it is the value, with the same object, of a call that finds
    no input at all. *)
Lemma readSerial_empty_line_not_signalled :
  exists st,
    (_term demo_device ∉ ["009"%char]) ∧
    length (List.filter isprint ["009"%char]) <= 32 ∧
    feed 32 (clearBuffer demo_device) ["009"%char] = Ok ([0], st) ∧
    readSerial 32 st ["010"%char] = Ok (0, st, []) ∧
    ~ line_ready 0 ∧
    readSerial 32 st [] = Ok (0, st, []).
Proof.
  eexists.
  split; [apply (bool_decide_unpack _); vm_compute; exact I|].
  split; [vm_compute; lia|].
  split; [vm_compute; reflexivity|].
  split; [vm_compute; reflexivity|].
  split; [intros H; by apply H | reflexivity].
Qed.

(** C7, as stated, fails: after the dispatch cycle for "OPEN DEV2 arg1",
    which runs no handler and ends in [clearBuffer], and after one more
    [clearBuffer], the cursor still points into the old line, and [next()]
    returns "arg1" from it. *)
Lemma clearBuffer_leaves_cursor :
  exists st' st'',
    processCommand (demo_state "OPEN DEV2 arg1") = Ok ([], st') ∧
    _bufPos (clearBuffer st') = 0 ∧
    _last (clearBuffer st') = Some 10 ∧
    next (clearBuffer st') = Ok (Some 10, st'') ∧
    token_at st'' (Some 10) = Some (str "arg1") ∧
    ~ cursor_invalidated (clearBuffer st').
Proof.
  do 2 eexists.
  split; [vm_compute; reflexivity|].
  split; [reflexivity|]. split; [vm_compute; reflexivity|].
  split; [vm_compute; reflexivity|]. split; [vm_compute; reflexivity|].
  intros H. eapply (H 10). vm_compute. reflexivity.
Qed.

(** * Further properties *)

(** ** The registry *)

Section Registry.

Variable handler : Type.
Implicit Types st : SerialCommand handler.

(** The scan is the search for the first entry of that name. *)
Lemma scan_commands_find n (l : list (CommandInfo handler)) :
  valid_cstring n ->
  Forall (fun c => exists m, name c = Some m ∧ valid_cstring m) l ->
  scan_commands n l = Ok (List.find (fun c => bool_decide (name c = Some n)) l).
Proof.
  intros Hv Hl. induction Hl as [|c l (m & Hm & Hvm) _ IH]; simpl; [done|].
  rewrite Hm. destruct (decide (strcmp n m = 0%Z)) as [Heq|Hne].
  - apply strcmp_eq in Heq; [|done..]. subst m.
    by rewrite bool_decide_eq_true_2.
  - rewrite bool_decide_eq_false_2; [done|].
    intros [= ->]. apply Hne. by apply strcmp_eq.
Qed.

Lemma lookup_resolve st n :
  registry_named st -> valid_cstring n ->
  lookupCommandByName st (Some n) = Ok (set_current_command st (resolve st n)).
Proof.
  intros Hnamed Hv. unfold lookupCommandByName, resolve.
  rewrite scan_commands_find by done. simpl.
  by destruct (List.find _ _).
Qed.

Lemma scan_commands_app n (l l2 : list (CommandInfo handler)) :
  scan_commands n (l ++ l2) =
  match scan_commands n l with
  | Ok None => scan_commands n l2
  | r => r
  end.
Proof.
  induction l as [|c l IH]; simpl; [done|].
  destruct (name c) as [m|]; [|done].
  by destruct (decide (strcmp n m = 0%Z)).
Qed.

Lemma register_all_eq (regs : list (option cstring * option handler)) : forall st,
  _commandCount st <= _maxCommands st ->
  register_all st regs =
  set_commandList st
    (take (_maxCommands st)
       (_commandList st
        ++ map (fun r => {| name := r.1; function := r.2 |}) regs)).
Proof.
  unfold register_all, _commandCount.
  induction regs as [|r regs IH]; intros st Hle; simpl.
  - rewrite app_nil_r, take_ge by done. by destruct st.
  - unfold addCommand at 2. unfold _commandCount.
    destruct (decide (_maxCommands st <= length (_commandList st))) as [Hfull|Hroom].
    + rewrite (IH st Hle). f_equal. by rewrite !take_app_le by lia.
    + rewrite IH by (simpl; rewrite length_app; simpl; lia).
      simpl. by rewrite <- app_assoc.
Qed.

(** X2: a sequence of [addCommand] calls on an object whose count is
    within [_maxCommands] registers the entries in order until the list is
    full and drops the rest without any other change: the list becomes the
    first [_maxCommands] entries of the old list followed by the new ones,
    and the count never exceeds [_maxCommands]. *)
Theorem addCommand_sequence st (regs : list (option cstring * option handler)) :
  _commandCount st <= _maxCommands st ->
  register_all st regs =
  set_commandList st
    (take (_maxCommands st)
       (_commandList st
        ++ map (fun r => {| name := r.1; function := r.2 |}) regs)) ∧
  _commandCount (register_all st regs)
  = min (_maxCommands st) (_commandCount st + length regs).
Proof.
  intros Hle. split; [by apply register_all_eq|].
  rewrite register_all_eq by done. unfold _commandCount. simpl.
  rewrite length_take, length_app, length_map. done.
Qed.

Lemma find_append (p : CommandInfo handler -> bool) l l2 :
  List.find p (l ++ l2) =
  match List.find p l with Some x => Some x | None => List.find p l2 end.
Proof. induction l as [|c l IH]; simpl; [done|]. by destruct (p c). Qed.

(** X3: after [addCommand(nm, f)] with room left, the lookup of [nm] finds
    the new entry exactly when no earlier entry has that name; otherwise,
    and for every other name, the lookup selects what it selected before
    the registration (the first registered entry of a name wins). *)
Theorem addCommand_lookup st nm f n :
  _commandCount st < _maxCommands st ->
  registry_named st -> valid_cstring nm -> valid_cstring n ->
  let st' := addCommand st (Some nm) f in
  registry_named st' ∧
  lookupCommandByName st' (Some n) =
  Ok (set_current_command st'
        (if decide (n = nm ∧ Forall (fun c => name c <> Some n) (_commandList st))
         then {| name := Some nm; function := f |}
         else resolve st n)).
Proof.
  intros Hroom Hnamed Hvnm Hvn. unfold addCommand.
  destruct (decide (_maxCommands st <= _commandCount st)) as [|_]; [lia|].
  cbv zeta.
  assert (Hnamed' : registry_named
            (set_commandList st
               (_commandList st ++ [{| name := Some nm; function := f |}]))).
  { unfold registry_named. simpl. apply Forall_app. split; [done|].
    constructor; [|constructor]. by exists nm. }
  split; [done|].
  rewrite lookup_resolve by done. f_equal. f_equal.
  unfold resolve. simpl. rewrite find_append.
  destruct (List.find (fun c => bool_decide (name c = Some n)) (_commandList st))
    as [c|] eqn:Hfind.
  - apply find_some in Hfind as [Hin Hc]. apply bool_decide_eq_true in Hc.
    destruct (decide _) as [[_ Hall]|_]; [|done].
    rewrite Forall_forall in Hall. apply list_elem_of_In in Hin.
    by destruct (Hall c Hin).
  - simpl. destruct (decide (n = nm)) as [->|Hne].
    + rewrite bool_decide_eq_true_2 by done.
      destruct (decide _) as [_|Hno]; [done|]. destruct Hno. split; [done|].
      apply Forall_forall. intros c Hin Hc.
      apply list_elem_of_In in Hin.
      pose proof (find_none _ _ Hfind c Hin) as Hb. simpl in Hb.
      by rewrite bool_decide_eq_true_2 in Hb.
    + rewrite bool_decide_eq_false_2 by congruence.
      destruct (decide _) as [[? _]|_]; [done|done].
Qed.

(** X4: [addCommand] stores a null name as it is, and a lookup whose scan
    reaches such an entry (no earlier entry comparing equal) passes the
    null pointer to [strcmp]: it ends in a null dereference. *)
Theorem lookupCommandByName_null_entry st n pre c post :
  _commandList st = pre ++ c :: post ->
  Forall (fun c' => exists m, name c' = Some m ∧ strcmp n m <> 0%Z) pre ->
  name c = None ->
  lookupCommandByName st (Some n) = Fault NullDereference.
Proof.
  intros Hl Hpre Hc. unfold lookupCommandByName. rewrite Hl.
  rewrite scan_commands_app.
  assert (E : scan_commands n pre = Ok None).
  { clear Hl. induction Hpre as [|c' pre' (m & Hm & Hne) _ IH]; simpl; [done|].
    rewrite Hm. by destruct (decide (strcmp n m = 0%Z)). }
  rewrite E. simpl. by rewrite Hc.
Qed.

End Registry.

(** ** Tokens *)

Lemma cstr_is_valid m : valid_cstring (cstr m).
Proof.
  unfold valid_cstring. induction m as [|c m IH]; simpl; [apply not_elem_of_nil|].
  destruct (decide (c = NUL)); [apply not_elem_of_nil|].
  apply not_elem_of_cons. split; [congruence | done].
Qed.

Lemma split_tokens_shape delim s : forall cur,
  Forall (fun c => is_delim delim c = false) cur ->
  Forall (fun t => t <> [] ∧ Forall (fun c => is_delim delim c = false) t)
         (split_tokens delim cur s).
Proof.
  assert (Hrev : forall cur, cur <> [] ->
            Forall (fun c => is_delim delim c = false) cur ->
            rev cur <> [] ∧ Forall (fun c => is_delim delim c = false) (rev cur)).
  { intros cur Hne Hcur. split.
    - intros E. apply Hne. by rewrite <- (rev_involutive cur), E.
    - apply Forall_forall. intros c Hc. rewrite Forall_forall in Hcur.
      apply Hcur. apply list_elem_of_In. apply in_rev.
      by apply list_elem_of_In. }
  induction s as [|c s IH]; intros cur Hcur; simpl.
  - destruct cur as [|c0 cur]; [constructor|].
    constructor; [by apply Hrev | constructor].
  - destruct (is_delim delim c) eqn:Hc.
    + destruct cur as [|c0 cur]; [by apply IH|].
      constructor; [by apply Hrev | by apply IH].
    + apply IH. by constructor.
Qed.

Lemma tokens_shape delim s :
  Forall (fun t => t <> [] ∧ Forall (fun c => is_delim delim c = false) t)
         (tokens delim s).
Proof. apply split_tokens_shape. constructor. Qed.

(** What [strtok_r] does to the array and the saved pointer, whatever the
    memory holds: it moves the pointer forward and writes at most one NUL,
    at or after the position it started from. *)
Lemma strtok_r_frame delim buf sarg save i tok buf' save' :
  resume sarg save = Some i ->
  strtok_r buf sarg delim save = Ok (tok, buf', save') ->
  length buf' = length buf ∧
  exists j, save' = Some j ∧ i <= j ∧
            (buf' = buf ∨ exists e, i <= e ∧ buf' = <[e := NUL]> buf).
Proof.
  intros Hres. unfold strtok_r.
  assert (Hstart : forall B (k : nat -> result B),
    (match sarg, save with
     | Some i, _ => Ok i | None, Some i => Ok i
     | None, None => Fault NullDereference end ≫= k) = k i).
  { intros B k. destruct sarg as [?|], save as [?|]; simpl in Hres;
      try injection Hres as ->; done. }
  rewrite Hstart. clear Hstart.
  destruct (strspn (drop i buf) delim) as [n|]; [simpl|done].
  destruct (load buf (i + n)) as [c|]; [simpl|done].
  destruct (decide (c = NUL)) as [_|_].
  { intros [= <- <- <-]. split; [done|]. exists (i + n).
    split; [done|]. split; [lia | by left]. }
  destruct (strcspn (drop (i + n) buf) delim) as [m|]; [simpl|done].
  destruct (load buf (i + n + m)) as [c'|]; [simpl|done].
  destruct (decide (c' = NUL)) as [_|_].
  { intros [= <- <- <-]. split; [done|]. exists (i + n + m).
    split; [done|]. split; [lia | by left]. }
  unfold store. destruct (decide (i + n + m < length buf)) as [_|_]; [simpl|done].
  intros [= <- <- <-]. split; [by rewrite length_insert|].
  exists (S (i + n + m)). split; [done|]. split; [lia|].
  right. exists (i + n + m). split; [lia | done].
Qed.

Section Cursor.

Variable handler : Type.
Implicit Types st : SerialCommand handler.

(** X13: a token that [next()] returns is one of the tokens of the rest
    of the line; it is not empty and holds neither a delimiter nor a
    NUL. *)
Theorem next_token_shape st s p st' :
  cursor_before st s ->
  next st = Ok (Some p, st') ->
  exists t,
    token_at st' (Some p) = Some t ∧ t <> [] ∧ valid_cstring t ∧
    Forall (fun c => is_delim (_delim st) c = false) t ∧
    t ∈ tokens (_delim st) s.
Proof.
  intros Hcur Hnext.
  destruct (next_spec handler st s Hcur)
    as (tok & st1 & s' & E & Htok & _ & _ & _ & _ & _).
  rewrite Hnext in E. injection E as <- <-.
  exists (cstr_at (_buffer st') p). split; [done|].
  simpl in Htok.
  pose proof (tokens_shape (_delim st) s) as Hshape.
  destruct (tokens (_delim st) s) as [|t ts]; [done|].
  simpl in Htok. injection Htok as Ht. rewrite Ht.
  inversion_clear Hshape as [|? ? [Hne Hnd] _].
  split; [done|]. split; [rewrite <- Ht; apply cstr_is_valid|].
  split; [done | by left].
Qed.

(** X14: [next()] only moves the cursor forward, and a string that ends
    before the cursor reads the same after the call and still ends before
    the new cursor; the token the call returns ends before the new cursor
    too.  So every token stays readable through all later calls of
    [next()]. *)
Theorem next_keeps_tokens st j tok st' :
  _last st = Some j ->
  next st = Ok (tok, st') ->
  (exists j', _last st' = Some j' ∧ j <= j' ∧
     forall p, p + length (cstr_at (_buffer st) p) <= j ->
       cstr_at (_buffer st') p = cstr_at (_buffer st) p ∧
       p + length (cstr_at (_buffer st') p) <= j') ∧
  (forall s q, cursor_before st s -> tok = Some q ->
     exists j', _last st' = Some j' ∧
                q + length (cstr_at (_buffer st') q) <= j').
Proof.
  intros Hlast Hnext. split.
  - unfold next, tokenize in Hnext.
    destruct (strtok_r (_buffer st) None (_delim st) (_last st))
      as [[[tk buf'] save']|] eqn:E; [|done].
    simpl in Hnext. injection Hnext as <- <-.
    destruct (strtok_r_frame (_delim st) (_buffer st) None (_last st) j _ _ _
                Hlast E)
      as (_ & j' & -> & Hle & Hbuf).
    exists j'. split; [done|]. split; [done|]. intros p Hp. simpl.
    destruct Hbuf as [->|(e & He & ->)]; [split; [done|lia]|].
    rewrite cstr_at_insert_ge by lia. split; [done|lia].
  - intros s q (Hv & i & rest & Hi & Hdrop) ->.
    destruct (tokenize_spec handler st None i s rest)
      as (tok & buf' & j' & s' & E & _ & _ & _ & _ & _ & Hk & _);
      [by rewrite Hi | done | done |].
    unfold next in Hnext. rewrite Hnext in E. injection E as <- ->.
    exists j'. split; [done|]. by destruct (Hk q eq_refl).
Qed.

End Cursor.

Section Dispatching.

Variable handler : Type.
Implicit Types st : SerialCommand handler.

Lemma resolve_cases st n :
  resolve st n ∈ _commandList st ∨
  resolve st n = {| name := Some n; function := function (_default_command st) |}.
Proof.
  unfold resolve.
  destruct (List.find _ _) as [c|] eqn:E; [left | by right].
  apply find_some in E as [Hin _]. by apply list_elem_of_In.
Qed.

(** X5: on a completed line [matchCommand] resolves the first token: the
    current command becomes the first registered entry of that name, or
    the default handler with that name, and the cursor stands before the
    rest of the line.  On a line without token the current command stays
    what it was, so a [runCommand] after it runs the previous command
    again.  The buffer is not cleared. *)
Theorem matchCommand_resolves st line :
  holds_line st line -> registry_named st ->
  exists st' s,
    matchCommand st = Ok st' ∧
    _current_command st' =
      match tokens (_delim st) line with
      | [] => _current_command st
      | t :: _ => resolve st t
      end ∧
    cursor_before st' s ∧
    tokens (_delim st) s = tail (tokens (_delim st) line) ∧
    _bufPos st' = _bufPos st.
Proof.
  intros (Hv & rest & Hbuf) Hnamed.
  destruct (tokenize_spec handler st (Some 0) 0 line rest eq_refl Hbuf Hv)
    as (nm & buf1 & j1 & s1 & E1 & _ & Hd1 & Hv1 & Ht1 & Hs1 & _ & _).
  unfold matchCommand. rewrite E1. simpl.
  unfold token_at. simpl. rewrite Ht1.
  destruct (tokens (_delim st) line) as [|t ts] eqn:Htok; simpl.
  - eexists _, s1. split; [reflexivity|]. split; [done|].
    split; [|done]. split; [done|]. by exists j1, rest.
  - assert (Hvt : valid_cstring t).
    { destruct nm as [k|]; [|done]. simpl in Ht1. injection Ht1 as <-.
      apply cstr_is_valid. }
    pose proof (lookup_resolve handler
                  (set_last (set_buffer st buf1) (Some j1)) t Hnamed Hvt) as L.
    unfold lookupCommandByName in L. simpl in L. rewrite L.
    eexists _, s1. split; [reflexivity|]. split; [done|].
    split; [|done]. split; [done|]. by exists j1, rest.
Qed.

Lemma dispatch_on_match st line nm id more :
  holds_line st line -> registry_named st ->
  tokens (_delim st) line = nm :: id :: more ->
  _device_type st = Some id ->
  exists st3 s,
    processCommand st =
    Ok (match function (resolve st nm) with
        | Some f => [{| callee := f; self := st3 |}]
        | None => []
        end, clearBuffer st3) ∧
    _current_command st3 = resolve st nm ∧
    cursor_before st3 s ∧
    tokens (_delim st) s = more ∧
    _delim st3 = _delim st.
Proof.
  intros Hline Hnamed Htok Hdt.
  destruct (first_two_tokens handler st line Hline)
    as (p1 & st1 & p2 & buf & j & s & E1 & E2 & Hnm & Hid & Hcur & Hs).
  cbv zeta in *. rewrite Htok in Hnm, Hid, Hs. simpl in Hnm, Hid, Hs.
  assert (Hvnm : valid_cstring nm).
  { unfold token_at in Hnm. destruct p1 as [k|]; [|done].
    simpl in Hnm. injection Hnm as <-. apply cstr_is_valid. }
  unfold processCommand. rewrite E1. simpl. rewrite E2. simpl.
  rewrite Hdt, Hid, Hnm. simpl.
  destruct (decide (strcmp id id = 0%Z)) as [_|Hne];
    [|destruct Hne; by apply strcmp_zero].
  pose proof (lookup_resolve handler
                (set_last (set_buffer st buf) (Some j)) nm Hnamed Hvnm) as L.
  unfold lookupCommandByName in L. simpl in L. rewrite L.
  simpl. eexists _, s. split.
  { unfold runCommand. simpl.
    change (resolve (set_last (set_buffer st buf) (Some j)) nm)
      with (resolve st nm).
    destruct (function (resolve st nm)); reflexivity. }
  split; [done|]. split; [|done].
  destruct Hcur as (Hv & j' & rest & Hl & Hd). split; [done|].
  by exists j', rest.
Qed.

(** X6: on a completed line whose second token equals the configured
    device type, [processCommand] resolves the first token and calls the
    handler of the resolved command exactly once, or no handler when that
    one is null; the handler receives the object with that current command
    and with the cursor before the arguments, the tokens after the second
    one; the length is 0 when [processCommand] returns. *)
Theorem processCommand_dispatches st line nm id more :
  holds_line st line -> registry_named st ->
  tokens (_delim st) line = nm :: id :: more ->
  _device_type st = Some id ->
  exists st3 s st',
    processCommand st =
    Ok (match function (resolve st nm) with
        | Some f => [{| callee := f; self := st3 |}]
        | None => []
        end, st') ∧
    _current_command st3 = resolve st nm ∧
    cursor_before st3 s ∧
    tokens (_delim st) s = more ∧
    _delim st3 = _delim st ∧
    _bufPos st' = 0.
Proof.
  intros Hline Hnamed Htok Hdt.
  destruct (dispatch_on_match st line nm id more Hline Hnamed Htok Hdt)
    as (st3 & s & Hrun & Hcmd & Hcur & Hs & Hd).
  exists st3, s, (clearBuffer st3). by rewrite Hrun.
Qed.

(** X7: a dispatch cycle that returns on a completed line makes at most
    one handler call, and only of the function of a registered entry or of
    the default handler; it leaves the length at 0 and changes neither the
    size of the array, nor the registry, the default command, the device
    type, the delimiter or the terminator. *)
Theorem processCommand_calls_registered st line calls st' :
  holds_line st line -> registry_named st ->
  processCommand st = Ok (calls, st') ->
  length calls <= 1 ∧
  (forall inv, inv ∈ calls ->
     (exists c, c ∈ _commandList st ∧ function c = Some (callee inv)) ∨
     function (_default_command st) = Some (callee inv)) ∧
  _bufPos st' = 0 ∧
  length (_buffer st') = length (_buffer st) ∧
  _commandList st' = _commandList st ∧
  _default_command st' = _default_command st ∧
  _device_type st' = _device_type st ∧
  _delim st' = _delim st ∧ _term st' = _term st.
Proof.
  intros Hline Hnamed.
  destruct (first_two_tokens handler st line Hline)
    as (p1 & st1 & p2 & buf & j & s & E1 & E2 & Hnm & Hid & _ & _).
  cbv zeta in *.
  assert (Hlen : length buf = length (_buffer st)).
  { unfold tokenize in E1, E2.
    destruct (strtok_r (_buffer st) (Some 0) (_delim st) (_last st))
      as [[[t1 b1] sv1]|] eqn:F1; [|done].
    simpl in E1. injection E1 as <- <-. simpl in E2.
    destruct (strtok_r b1 None (_delim st) sv1)
      as [[[t2 b2] sv2]|] eqn:F2; [|done].
    simpl in E2. injection E2 as _ Hb _.
    destruct (strtok_r_frame (_delim st) (_buffer st) (Some 0) (_last st) 0
                _ _ _ eq_refl F1)
      as (L1 & j1 & -> & _ & _).
    destruct (strtok_r_frame (_delim st) b1 None (Some j1) j1 _ _ _ eq_refl F2)
      as (L2 & _). congruence. }
  unfold processCommand. rewrite E1. simpl. rewrite E2. simpl.
  destruct (_device_type st) as [dt|] eqn:Hdt.
  2:{ intros [= <- <-]. simpl. rewrite length_insert.
      split; [lia|]. split; [by intros ? ?%elem_of_nil|]. done. }
  rewrite Hid.
  destruct (tokens (_delim st) line) as [|t [|i ts]]; simpl in *; [done|done|].
  destruct (decide (strcmp i dt = 0%Z)) as [_|_].
  2:{ intros [= <- <-]. simpl. rewrite length_insert.
      split; [lia|]. split; [by intros ? ?%elem_of_nil|]. done. }
  rewrite Hnm.
  assert (Hvt : valid_cstring t).
  { unfold token_at in Hnm. destruct p1 as [k|]; [|done].
    simpl in Hnm. injection Hnm as <-. apply cstr_is_valid. }
  rewrite (lookup_resolve handler (set_last (set_buffer st buf) (Some j)) t)
    by done.
  simpl. intros [= <- <-]. simpl. rewrite length_insert.
  change (resolve (set_last (set_buffer st buf) (Some j)) t) with (resolve st t).
  unfold runCommand. simpl.
  destruct (function (resolve st t)) as [f|] eqn:Hf; simpl.
  - split; [lia|]. split; [|done].
    intros inv ->%list_elem_of_singleton. simpl.
    destruct (resolve_cases st t) as [Hin|Hdef].
    + left. by exists (resolve st t).
    + right. rewrite Hdef in Hf. done.
  - split; [lia|]. split; [by intros ? ?%elem_of_nil|]. done.
Qed.

End Dispatching.

Lemma filter_isprint_all l :
  Forall (fun c => isprint c = true) l -> List.filter isprint l = l.
Proof.
  induction 1 as [|c l Hc _ IH]; simpl; [done|]. by rewrite Hc, IH.
Qed.

Lemma printable_valid l :
  Forall (fun c => isprint c = true) l -> valid_cstring l.
Proof.
  intros Hl Hin. rewrite Forall_forall in Hl. by specialize (Hl _ Hin).
Qed.

Lemma tokens_nil delim : tokens delim [] = [].
Proof. reflexivity. Qed.

Section Lines.

Variable C : nat.
Variable handler : Type.
Implicit Types st : SerialCommand handler.

Lemma holds_line_intro st line :
  Forall (fun c => isprint c = true) line ->
  take (length line) (_buffer st) = line ->
  _buffer st !! length line = Some NUL ->
  holds_line st line.
Proof.
  intros Hp Htk Hnul. split; [by apply printable_valid|].
  exists (drop (S (length line)) (_buffer st)).
  rewrite <- (take_drop_middle _ _ _ Hnul) at 1. by rewrite Htk.
Qed.

Lemma received_line st0 bytes rest :
  buffer_declared C st0 ->
  _term st0 ∉ bytes ->
  length (List.filter isprint bytes) <= C ->
  exists buf,
    let line := List.filter isprint bytes in
    let st := set_bufPos (set_buffer (clearBuffer st0) buf) (length line) in
    readSerial C (clearBuffer st0) (bytes ++ _term st0 :: rest)
    = Ok (length line, st, rest) ∧
    holds_line st line ∧ bounded C st.
Proof.
  intros Hl Ht Hfit.
  destruct (readSerial_appends C handler bytes (clearBuffer st0))
    as (buf & E & Hlen & Htk & Hnul);
    [by apply clearBuffer_bounded | done | simpl; lia |].
  simpl in E, Htk, Hnul.
  specialize (Hnul (or_introl (clearBuffer_NUL C handler st0 Hl))).
  exists buf. cbv zeta. split; [|split].
  - rewrite readSerial_app by done. rewrite E. simpl.
    by destruct (decide (_term st0 = _term st0)).
  - apply holds_line_intro; [apply Forall_filter_isprint|done..].
  - split; [done | simpl; lia].
Qed.

(** X8: when bytes without terminator, whose printable ones fit the
    capacity, arrive at a cleared buffer followed by the terminator, one
    call of [readSerial] returns the number of printable bytes, leaves the
    bytes after the terminator unread, and leaves the buffer holding the
    printable bytes as a completed line, within the bound. *)
Theorem readSerial_completes_line st0 bytes rest :
  buffer_declared C st0 ->
  _term st0 ∉ bytes ->
  length (List.filter isprint bytes) <= C ->
  exists buf,
    let line := List.filter isprint bytes in
    let st := set_bufPos (set_buffer (clearBuffer st0) buf) (length line) in
    readSerial C (clearBuffer st0) (bytes ++ _term st0 :: rest)
    = Ok (length line, st, rest) ∧
    holds_line st line ∧ bounded C st.
Proof. apply received_line. Qed.

(** X9: from the bytes to the handler.  When bytes without terminator,
    whose printable ones fit the capacity, arrive at a cleared buffer
    followed by the terminator, and the printable bytes have at least two
    tokens of which the second equals the device type, [readSerial]
    returns a non-zero length and the [processCommand] that follows calls
    the handler that the first token resolves to, once, or no handler when
    that one is null; the length is 0 when it returns. *)
Theorem receive_then_dispatch st0 bytes rest nm id more :
  buffer_declared C st0 -> registry_named st0 ->
  _term st0 ∉ bytes ->
  length (List.filter isprint bytes) <= C ->
  tokens (_delim st0) (List.filter isprint bytes) = nm :: id :: more ->
  _device_type st0 = Some id ->
  exists n st st3 st',
    readSerial C (clearBuffer st0) (bytes ++ _term st0 :: rest) = Ok (n, st, rest) ∧
    0 < n ∧
    processCommand st =
    Ok (match function (resolve st0 nm) with
        | Some f => [{| callee := f; self := st3 |}]
        | None => []
        end, st') ∧
    _current_command st3 = resolve st0 nm ∧
    _bufPos st' = 0.
Proof.
  intros Hl Hnamed Ht Hfit Htok Hdt.
  destruct (received_line st0 bytes rest Hl Ht Hfit)
    as (buf & E & Hline & _).
  cbv zeta in *.
  set (st := set_bufPos (set_buffer (clearBuffer st0) buf)
               (length (List.filter isprint bytes))) in *.
  destruct (dispatch_on_match handler st _ nm id more Hline Hnamed Htok Hdt)
    as (st3 & s & Hrun & Hcmd & _).
  exists (length (List.filter isprint bytes)), st, st3, (clearBuffer st3).
  split; [done|]. split; [|by rewrite Hrun].
  destruct (List.filter isprint bytes); [done | simpl; lia].
Qed.

(** X12: [setBuffer] never faults on an object with the declared array:
    it leaves the buffer holding a completed line, the first
    [SERIALCOMMAND_BUFFER] printable characters before the terminator,
    within the bound, and it changes neither the registry, the default
    command, the device type, the delimiter nor the cursor. *)
Theorem setBuffer_completes_line st text :
  buffer_declared C st ->
  exists st',
    let line := take C (List.filter isprint (before_terminator (_term st) text)) in
    setBuffer C st text = Ok st' ∧ holds_line st' line ∧ bounded C st' ∧
    _commandList st' = _commandList st ∧
    _default_command st' = _default_command st ∧
    _device_type st' = _device_type st ∧ _delim st' = _delim st ∧
    _last st' = _last st.
Proof.
  intros Hl. unfold setBuffer.
  destruct (setBuffer_loop_spec C handler text (clearBuffer st))
    as (buf & E & Hlen & Htk & Hn);
    [by apply clearBuffer_bounded | by apply (clearBuffer_NUL C handler st) |].
  simpl in E, Htk, Hn. rewrite Nat.sub_0_r in *.
  eexists. cbv zeta. split; [exact E|]. split; [|split; [|done]].
  - apply holds_line_intro; simpl.
    + apply Forall_take, Forall_filter_isprint.
    + done.
    + done.
  - split; [done|]. simpl. rewrite length_take. lia.
Qed.

(** X10: when one printable byte more than the capacity arrives at a
    cleared buffer, the length is back at 0 but the array still holds the
    [SERIALCOMMAND_BUFFER] characters of the dropped line as its string,
    and a terminator that follows returns 0: the caller is not told of the
    line. *)
Theorem readSerial_overflow_keeps_contents st0 full c :
  buffer_declared C st0 ->
  Forall (fun b => isprint b = true) full -> length full = C ->
  _term st0 ∉ full -> isprint c = true -> c <> _term st0 ->
  exists st,
    readSerial C (clearBuffer st0) (full ++ [c]) = Ok (0, st, []) ∧
    _bufPos st = 0 ∧
    cstr (_buffer st) = full ∧
    readSerial C st [_term st0] = Ok (0, st, []).
Proof.
  intros Hl Hp Hlen Ht Hc Hne.
  destruct (readSerial_appends C handler full (clearBuffer st0))
    as (buf & E & Hbl & Htk & Hnul);
    [by apply clearBuffer_bounded | done
    | simpl; rewrite filter_isprint_all by done; lia |].
  simpl in E, Htk, Hnul. rewrite filter_isprint_all in E, Htk, Hnul by done.
  rewrite Hlen in *.
  specialize (Hnul (or_introl (clearBuffer_NUL C handler st0 Hl))).
  eexists. split.
  { rewrite readSerial_app by done. rewrite E. simpl.
    destruct (decide (c = _term st0)) as [|_]; [done|]. rewrite Hc.
    destruct (decide (C < C)) as [|_]; [lia|]. reflexivity. }
  simpl. split; [done|]. split.
  - rewrite (cstr_take buf C); [done|done|]. by rewrite Htk.
  - by destruct (decide (_term st0 = _term st0)).
Qed.

(** X11: up to the first terminator it does not matter how the input is
    cut into calls of [readSerial]: a call over two parts, the first without
    terminator, is the call over the first followed by the call over the
    second, and feeding bytes one call each is one call over all of them,
    every call returning 0. *)
Theorem readSerial_chunks st a b :
  _term st ∉ a ->
  readSerial C st (a ++ b)
  = ('(_, st', _) ← readSerial C st a; readSerial C st' b) ∧
  feed C st a
  = ('(_, st', _) ← readSerial C st a; Ok (replicate (length a) 0, st')).
Proof.
  intros Ht. split; [by apply readSerial_app | by apply feed_readSerial].
Qed.

(** X1: the constructor, any registrations with non-null C-string names
    and [setDefaultHandler] give an object within the bound, with an empty
    buffer, a registry of named entries (the first [maxCommands]
    registrations, in order), the given default handler and device type, a
    null cursor, the space as delimiter and the newline as terminator. *)
Theorem setup_well_formed raw deviceType pin maxCommands
    (regs : list (option cstring * option handler)) f :
  buffer_declared C raw ->
  Forall (fun r => exists n, r.1 = Some n ∧ valid_cstring n) regs ->
  let st := setDefaultHandler
              (register_all (construct raw deviceType pin maxCommands) regs) f in
  bounded C st ∧ registry_named st ∧ holds_line st [] ∧
  _commandList st
  = take maxCommands (map (fun r => {| name := r.1; function := r.2 |}) regs) ∧
  function (_default_command st) = f ∧
  _device_type st = deviceType ∧ _last st = None ∧
  _delim st = [" "%char] ∧ _term st = "010"%char.
Proof.
  intros Hl Hregs. cbv zeta.
  rewrite register_all_eq by (unfold _commandCount; simpl; lia). simpl.
  split; [|split; [|split; [|done]]].
  - split; [|simpl; lia]. unfold buffer_declared in *. simpl.
    by rewrite length_insert.
  - unfold registry_named. simpl. apply Forall_take, Forall_map.
    eapply Forall_impl; [exact Hregs|]. by intros [n0 f0].
  - split; [apply not_elem_of_nil|]. simpl.
    unfold buffer_declared in Hl. destruct (_buffer raw) as [|c0 b]; [done|].
    by exists b.
Qed.

End Lines.

(** ** The transmit discipline *)

Lemma pin_level_app pin l1 : forall level l2,
  pin_level pin level (l1 ++ l2) = pin_level pin (pin_level pin level l1) l2.
Proof. induction l1 as [|[] l1 IH]; intros level l2; simpl; by rewrite ?IH. Qed.

Lemma port_guarded_app aliased pin l1 : forall level l2,
  port_guarded aliased pin level (l1 ++ l2)
  = port_guarded aliased pin level l1
    && port_guarded aliased pin (pin_level pin level l1) l2.
Proof.
  induction l1 as [|[] l1 IH]; intros level l2; simpl; rewrite ?IH; try done;
    by destruct level, aliased.
Qed.

Lemma echo_released_app pin l1 : forall level l2,
  echo_released pin level (l1 ++ l2)
  = echo_released pin level l1 && echo_released pin (pin_level pin level l1) l2.
Proof.
  induction l1 as [|[] l1 IH]; intros level l2; simpl; rewrite ?IH; try done;
    by destruct level.
Qed.

Lemma port_writes_guarded aliased pin s :
  port_guarded aliased pin true (map PortWrite s) = true ∧
  echo_released pin true (map PortWrite s) = true ∧
  pin_level pin true (map PortWrite s) = true.
Proof.
  induction s as [|c s (IH1 & IH2 & IH3)]; simpl; by rewrite ?IH1, ?IH2, ?IH3.
Qed.

Lemma serial_writes_released pin s :
  port_guarded false pin false (map SerialWrite s) = true ∧
  echo_released pin false (map SerialWrite s) = true ∧
  pin_level pin false (map SerialWrite s) = false.
Proof.
  induction s as [|c s (IH1 & IH2 & IH3)]; simpl; by rewrite ?IH1, ?IH2, ?IH3.
Qed.

Section Transmit.

Variable handler : Type.
Implicit Types st : SerialCommand handler.

(** What one call adds to the log. *)
Lemma sendData_appends st message d log :
  sendData st message d log = log ++ sendData st message d [].
Proof.
  unfold sendData, serial_println.
  rewrite !serial_print_log, !port_print_log. unfold emit.
  simpl. by rewrite <- !app_assoc.
Qed.

Lemma send_all_appends st msgs : forall log,
  send_all st msgs log = log ++ send_all st msgs [].
Proof.
  unfold send_all. induction msgs as [|m msgs IH]; intros log; simpl.
  - by rewrite app_nil_r.
  - rewrite IH, (IH (sendData st m.1 m.2 [])), sendData_appends.
    by rewrite <- app_assoc.
Qed.

Lemma sendData_guarded st message d level :
  let pin := _writeEnablePin st in
  let sent := sendData st message d [] in
  port_guarded false pin level sent = true ∧
  echo_released pin level sent = true ∧
  pin_level pin level sent = false ∧
  port_guarded true pin level sent = false.
Proof.
  cbv zeta. unfold sendData, serial_println.
  rewrite !serial_print_log, port_print_log. unfold emit.
  set (pin := _writeEnablePin st).
  destruct (port_writes_guarded false pin message) as (G1 & R1 & L1).
  destruct (port_writes_guarded true pin message) as (G1' & _ & _).
  destruct (serial_writes_released pin message) as (G2 & R2 & L2).
  rewrite !port_guarded_app, !echo_released_app, !pin_level_app. simpl.
  destruct (decide (pin = pin)) as [_|]; [|done].
  rewrite G1, G1', R1, L1. simpl.
  destruct (decide (pin = pin)) as [_|]; [|done].
  rewrite G2, R2, L2. simpl.
  split; [done|]. split; [done|]. split; [done|].
  destruct (port_guarded true pin false (map SerialWrite message)); done.
Qed.

(** X15: over any sequence of [sendData] calls appended to a log that
    keeps both disciplines, every byte written through [_port] and every
    flush of it happens while the direction pin is high, and every byte of
    the echo on [Serial] is printed with the pin low; after the last call
    the pin is low.  Where [_port] is the global [Serial] itself, the echo
    reaches the port with the pin low: no sequence with a call in it keeps
    the discipline of the port. *)
Theorem send_all_guarded st msgs level log :
  port_guarded false (_writeEnablePin st) level log = true ->
  echo_released (_writeEnablePin st) level log = true ->
  let sent := send_all st msgs log in
  port_guarded false (_writeEnablePin st) level sent = true ∧
  echo_released (_writeEnablePin st) level sent = true ∧
  (msgs <> [] ->
   pin_level (_writeEnablePin st) level sent = false ∧
   port_guarded true (_writeEnablePin st) level sent = false).
Proof.
  cbv zeta. revert log.
  induction msgs as [|m msgs IH]; intros log Hlog Hecho; [done|].
  change (send_all st (m :: msgs) log)
    with (send_all st msgs (sendData st m.1 m.2 log)).
  set (pin := _writeEnablePin st) in *.
  destruct (sendData_guarded st m.1 m.2 (pin_level pin level log))
    as (G & R & L & A).
  cbv zeta in G, R, L, A. fold pin in G, R, L, A.
  assert (Hlog' : port_guarded false pin level (sendData st m.1 m.2 log) = true)
    by (by rewrite sendData_appends, port_guarded_app, Hlog, G).
  assert (Hecho' : echo_released pin level (sendData st m.1 m.2 log) = true)
    by (by rewrite sendData_appends, echo_released_app, Hecho, R).
  destruct (IH _ Hlog' Hecho') as (G' & R' & Hlast).
  split; [done|]. split; [done|]. intros _. split.
  - destruct msgs as [|m' msgs]; [|by apply Hlast].
    unfold send_all. simpl. by rewrite sendData_appends, pin_level_app, L.
  - rewrite send_all_appends, sendData_appends, !port_guarded_app, A.
    by rewrite andb_false_r.
Qed.

End Transmit.

(** ** The further statements at the example device *)

Lemma registry_named_of_list {handler : Type} (st st' : SerialCommand handler) :
  _commandList st = _commandList st' -> registry_named st' -> registry_named st.
Proof. unfold registry_named. by intros ->. Defined.

Lemma demo_device_named : registry_named demo_device.
Proof.
  repeat constructor; eexists; (split; [reflexivity|]);
    by apply valid_cstring_compute.
Defined.

Lemma setup_well_formed_witness :
  buffer_declared 32 demo_raw ∧
  Forall (fun r : option cstring * option demo_handler =>
            exists n, r.1 = Some n ∧ valid_cstring n) demo_regs ∧
  bounded 32 (setDefaultHandler
                (register_all (construct demo_raw (Some (str "DEV1")) 2%Z 4)
                   demo_regs) (Some fallback)) ∧
  setDefaultHandler
    (register_all (construct demo_raw (Some (str "DEV1")) 2%Z 4) demo_regs)
    (Some fallback) = demo_device.
Proof.
  assert (H1 : buffer_declared 32 demo_raw) by reflexivity.
  assert (H2 : Forall (fun r : option cstring * option demo_handler =>
                         exists n, r.1 = Some n ∧ valid_cstring n) demo_regs).
  { repeat constructor; eexists; (split; [reflexivity|]);
      by apply valid_cstring_compute. }
  split; [exact H1|]. split; [exact H2|].
  destruct (setup_well_formed 32 demo_handler demo_raw (Some (str "DEV1")) 2%Z 4
              demo_regs (Some fallback) H1 H2) as (Hb & _).
  split; [exact Hb | reflexivity].
Defined.

Lemma addCommand_sequence_witness :
  _commandCount demo_small <= _maxCommands demo_small ∧
  _commandList (register_all demo_small demo_regs)
  = [{| name := Some (str "OPEN"); function := Some handlerA |}] ∧
  _commandCount (register_all demo_small demo_regs) = 1.
Proof.
  assert (H1 : _commandCount demo_small <= _maxCommands demo_small)
    by (vm_compute; lia).
  split; [exact H1|].
  destruct (addCommand_sequence demo_handler demo_small demo_regs H1) as [E1 E2].
  split; [by rewrite E1 | by rewrite E2].
Defined.

Lemma addCommand_lookup_witness :
  _commandCount demo_device < _maxCommands demo_device ∧
  registry_named demo_device ∧
  valid_cstring (str "CLOSE") ∧
  lookupCommandByName (addCommand demo_device (Some (str "CLOSE")) (Some handlerB))
    (Some (str "CLOSE"))
  = Ok (set_current_command
          (addCommand demo_device (Some (str "CLOSE")) (Some handlerB))
          {| name := Some (str "CLOSE"); function := Some handlerB |}).
Proof.
  assert (H1 : _commandCount demo_device < _maxCommands demo_device)
    by (vm_compute; lia).
  assert (H2 : registry_named demo_device) by exact demo_device_named.
  assert (H3 : valid_cstring (str "CLOSE")) by (by apply valid_cstring_compute).
  split; [exact H1|]. split; [exact H2|]. split; [exact H3|].
  destruct (addCommand_lookup demo_handler demo_device (str "CLOSE")
              (Some handlerB) (str "CLOSE") H1 H2 H3 H3) as [_ E].
  rewrite E. f_equal.
Defined.

Lemma lookupCommandByName_null_entry_witness :
  _commandList demo_null
  = [{| name := Some (str "OPEN"); function := Some handlerA |};
     {| name := Some (str "STATUS"); function := Some handlerB |}]
    ++ {| name := None; function := Some handlerA |} :: [] ∧
  lookupCommandByName demo_null (Some (str "CLOSE")) = Fault NullDereference.
Proof.
  assert (H1 : _commandList demo_null
    = [{| name := Some (str "OPEN"); function := Some handlerA |};
       {| name := Some (str "STATUS"); function := Some handlerB |}]
      ++ {| name := None; function := Some handlerA |} :: []) by reflexivity.
  split; [exact H1|].
  apply (lookupCommandByName_null_entry demo_handler demo_null (str "CLOSE")
           _ _ _ H1); [|reflexivity].
  constructor; [|constructor; [|constructor]];
    (eexists; split; [reflexivity|]; vm_compute; discriminate).
Defined.

Lemma matchCommand_resolves_witness :
  holds_line (demo_state "STATUS DEV9") (str "STATUS DEV9") ∧
  registry_named (demo_state "STATUS DEV9") ∧
  exists st',
    matchCommand (demo_state "STATUS DEV9") = Ok st' ∧
    _current_command st'
    = {| name := Some (str "STATUS"); function := Some handlerB |}.
Proof.
  assert (H1 : holds_line (demo_state "STATUS DEV9") (str "STATUS DEV9")).
  { split; [by apply valid_cstring_compute|].
    exists (replicate 21 "#"%char). reflexivity. }
  assert (H2 : registry_named (demo_state "STATUS DEV9")).
  { apply (registry_named_of_list _ demo_device);
      [vm_compute; reflexivity | exact demo_device_named]. }
  split; [exact H1|]. split; [exact H2|].
  destruct (matchCommand_resolves demo_handler _ _ H1 H2)
    as (st' & s & E & Hcmd & _).
  exists st'. split; [exact E | exact Hcmd].
Defined.

Lemma processCommand_dispatches_witness :
  holds_line (demo_state "OPEN DEV1 arg1 arg2") (str "OPEN DEV1 arg1 arg2") ∧
  registry_named (demo_state "OPEN DEV1 arg1 arg2") ∧
  exists st3 s st',
    processCommand (demo_state "OPEN DEV1 arg1 arg2")
    = Ok ([{| callee := handlerA; self := st3 |}], st') ∧
    cursor_before st3 s ∧
    tokens [" "%char] s = [str "arg1"; str "arg2"].
Proof.
  assert (H1 : holds_line (demo_state "OPEN DEV1 arg1 arg2")
                 (str "OPEN DEV1 arg1 arg2")).
  { split; [by apply valid_cstring_compute|].
    exists (replicate 13 "#"%char). reflexivity. }
  assert (H2 : registry_named (demo_state "OPEN DEV1 arg1 arg2")).
  { apply (registry_named_of_list _ demo_device);
      [vm_compute; reflexivity | exact demo_device_named]. }
  split; [exact H1|]. split; [exact H2|].
  destruct (processCommand_dispatches demo_handler _ _ (str "OPEN") (str "DEV1")
              [str "arg1"; str "arg2"] H1 H2 eq_refl eq_refl)
    as (st3 & s & st' & E & _ & Hcur & Hs & _).
  exists st3, s, st'. split; [exact E|]. split; [exact Hcur | exact Hs].
Defined.

Lemma processCommand_calls_registered_witness :
  holds_line (demo_state "CLOSE DEV1") (str "CLOSE DEV1") ∧
  registry_named (demo_state "CLOSE DEV1") ∧
  exists inv st',
    processCommand (demo_state "CLOSE DEV1") = Ok ([inv], st') ∧
    callee inv = fallback ∧ _bufPos st' = 0 ∧
    _commandList st' = _commandList demo_device.
Proof.
  assert (H1 : holds_line (demo_state "CLOSE DEV1") (str "CLOSE DEV1")).
  { split; [by apply valid_cstring_compute|].
    exists (replicate 22 "#"%char). reflexivity. }
  assert (H2 : registry_named (demo_state "CLOSE DEV1")).
  { apply (registry_named_of_list _ demo_device);
      [vm_compute; reflexivity | exact demo_device_named]. }
  split; [exact H1|]. split; [exact H2|].
  eexists _, _.
  assert (E : processCommand (demo_state "CLOSE DEV1") = Ok _)
    by (vm_compute; reflexivity).
  destruct (processCommand_calls_registered demo_handler _ _ _ _ H1 H2 E)
    as (_ & _ & Hpos & _ & Hl & _).
  split; [exact E|]. split; [reflexivity|]. split; [exact Hpos | exact Hl].
Defined.

Lemma readSerial_completes_line_witness :
  buffer_declared 32 demo_device ∧
  (_term demo_device ∉ demo_bytes) ∧
  length (List.filter isprint demo_bytes) <= 32 ∧
  exists st,
    readSerial 32 (clearBuffer demo_device) (demo_bytes ++ ["010"%char; "X"%char])
    = Ok (9, st, ["X"%char]) ∧
    holds_line st (str "OPEN DEV1").
Proof.
  assert (H1 : buffer_declared 32 demo_device) by reflexivity.
  assert (H2 : _term demo_device ∉ demo_bytes)
    by (apply (bool_decide_unpack _); vm_compute; exact I).
  assert (H3 : length (List.filter isprint demo_bytes) <= 32)
    by (vm_compute; lia).
  split; [exact H1|]. split; [exact H2|]. split; [exact H3|].
  destruct (readSerial_completes_line 32 demo_handler demo_device demo_bytes
              ["X"%char] H1 H2 H3) as (buf & E & Hline & _).
  eexists. split; [exact E | exact Hline].
Defined.

Lemma receive_then_dispatch_witness :
  buffer_declared 32 demo_device ∧
  registry_named demo_device ∧
  (_term demo_device ∉ str "OPEN DEV1 arg1") ∧
  length (List.filter isprint (str "OPEN DEV1 arg1")) <= 32 ∧
  exists n st st3 st',
    readSerial 32 (clearBuffer demo_device) (str "OPEN DEV1 arg1" ++ ["010"%char])
    = Ok (n, st, []) ∧ 0 < n ∧
    processCommand st
    = Ok ([{| callee := handlerA; self := st3 |}], st').
Proof.
  assert (H1 : buffer_declared 32 demo_device) by reflexivity.
  assert (H2 : registry_named demo_device) by exact demo_device_named.
  assert (H3 : _term demo_device ∉ str "OPEN DEV1 arg1")
    by (apply (bool_decide_unpack _); vm_compute; exact I).
  assert (H4 : length (List.filter isprint (str "OPEN DEV1 arg1")) <= 32)
    by (vm_compute; lia).
  split; [exact H1|]. split; [exact H2|]. split; [exact H3|].
  split; [exact H4|].
  destruct (receive_then_dispatch 32 demo_handler demo_device
              (str "OPEN DEV1 arg1") [] (str "OPEN") (str "DEV1") [str "arg1"]
              H1 H2 H3 H4 eq_refl eq_refl)
    as (n & st & st3 & st' & E & Hn & Hrun & _).
  exists n, st, st3, st'. split; [exact E|]. split; [exact Hn | exact Hrun].
Defined.

Lemma readSerial_overflow_keeps_contents_witness :
  buffer_declared 32 demo_device ∧
  Forall (fun b => isprint b = true) (str demo_full) ∧
  length (str demo_full) = 32 ∧
  exists st,
    readSerial 32 (clearBuffer demo_device) (str demo_full ++ ["W"%char])
    = Ok (0, st, []) ∧
    _bufPos st = 0 ∧ cstr (_buffer st) = str demo_full.
Proof.
  assert (H1 : buffer_declared 32 demo_device) by reflexivity.
  assert (H2 : Forall (fun b => isprint b = true) (str demo_full))
    by (repeat constructor).
  assert (H3 : length (str demo_full) = 32) by reflexivity.
  assert (H4 : _term demo_device ∉ str demo_full)
    by (apply (bool_decide_unpack _); vm_compute; exact I).
  split; [exact H1|]. split; [exact H2|]. split; [exact H3|].
  destruct (readSerial_overflow_keeps_contents 32 demo_handler demo_device
              (str demo_full) "W"%char H1 H2 H3 H4 eq_refl)
    as (st & E & Hpos & Hc & _); [discriminate|].
  exists st. split; [exact E|]. split; [exact Hpos | exact Hc].
Defined.

Lemma readSerial_chunks_witness :
  (_term demo_device ∉ str "OPEN") ∧
  readSerial 32 demo_device (str "OPEN" ++ str " DEV1")
  = ('(_, st', _) ← readSerial 32 demo_device (str "OPEN");
     readSerial 32 st' (str " DEV1")).
Proof.
  assert (H1 : _term demo_device ∉ str "OPEN")
    by (apply (bool_decide_unpack _); vm_compute; exact I).
  split; [exact H1|].
  apply (readSerial_chunks 32 demo_handler demo_device (str "OPEN")
           (str " DEV1") H1).
Defined.

Lemma setBuffer_completes_line_witness :
  buffer_declared 32 demo_device ∧
  exists st',
    setBuffer 32 demo_device (str demo_long) = Ok st' ∧
    holds_line st' (str demo_full).
Proof.
  assert (H1 : buffer_declared 32 demo_device) by reflexivity.
  split; [exact H1|].
  destruct (setBuffer_completes_line 32 demo_handler demo_device (str demo_long) H1)
    as (st' & E & Hline & _).
  exists st'. split; [exact E | exact Hline].
Defined.

Lemma next_token_shape_witness :
  cursor_before (demo_tokenized "OPEN DEV1 arg1 arg2") (str "arg1 arg2") ∧
  exists st' t,
    next (demo_tokenized "OPEN DEV1 arg1 arg2") = Ok (Some 10, st') ∧
    token_at st' (Some 10) = Some t ∧ t <> [] ∧ valid_cstring t.
Proof.
  assert (H1 : cursor_before (demo_tokenized "OPEN DEV1 arg1 arg2")
                 (str "arg1 arg2")).
  { split; [by apply valid_cstring_compute|].
    exists 10, (replicate 13 "#"%char). split; reflexivity. }
  split; [exact H1|].
  eexists.
  assert (E : next (demo_tokenized "OPEN DEV1 arg1 arg2") = Ok (Some 10, _))
    by (vm_compute; reflexivity).
  destruct (next_token_shape demo_handler _ _ _ _ H1 E)
    as (t & Ht & Hne & Hv & _).
  exists t. split; [exact E|]. split; [exact Ht|]. split; [exact Hne | exact Hv].
Defined.

Lemma next_keeps_tokens_witness :
  _last (demo_tokenized "OPEN DEV1 arg1 arg2") = Some 10 ∧
  exists tok st',
    next (demo_tokenized "OPEN DEV1 arg1 arg2") = Ok (tok, st') ∧
    cstr_at (_buffer st') 5 = str "DEV1" ∧
    cstr_at (_buffer st') 0 = str "OPEN".
Proof.
  assert (H1 : _last (demo_tokenized "OPEN DEV1 arg1 arg2") = Some 10)
    by reflexivity.
  split; [exact H1|].
  eexists _, _.
  assert (E : next (demo_tokenized "OPEN DEV1 arg1 arg2") = Ok _)
    by (vm_compute; reflexivity).
  destruct (next_keeps_tokens demo_handler _ 10 _ _ H1 E)
    as ((j' & _ & _ & Hkeep) & _).
  split; [exact E|]. split.
  - destruct (Hkeep 5) as [E5 _]; [vm_compute; lia|]. rewrite E5. reflexivity.
  - destruct (Hkeep 0) as [E0 _]; [vm_compute; lia|]. rewrite E0. reflexivity.
Defined.

Lemma send_all_guarded_witness :
  port_guarded false (_writeEnablePin demo_device) false [] = true ∧
  echo_released (_writeEnablePin demo_device) false [] = true ∧
  port_guarded false (_writeEnablePin demo_device) false
    (send_all demo_device demo_msgs []) = true ∧
  echo_released (_writeEnablePin demo_device) false
    (send_all demo_device demo_msgs []) = true ∧
  pin_level (_writeEnablePin demo_device) false
    (send_all demo_device demo_msgs []) = false ∧
  port_guarded true (_writeEnablePin demo_device) false
    (send_all demo_device demo_msgs []) = false.
Proof.
  assert (H1 : port_guarded false (_writeEnablePin demo_device) false [] = true)
    by reflexivity.
  assert (H2 : echo_released (_writeEnablePin demo_device) false [] = true)
    by reflexivity.
  split; [exact H1|]. split; [exact H2|].
  destruct (send_all_guarded demo_handler demo_device demo_msgs false [] H1 H2)
    as (G & R & Hlast).
  split; [exact G|]. split; [exact R|]. apply Hlast. discriminate.
Defined.
